(** * Portfolio page script (script.js): model and verified properties

    The script wires event listeners to a static page.  Each listener is
    modelled as a function on the part of the page it reads and writes:
    the closure variables of the initializer it belongs to, the inline
    styles it sets and the calls it makes to the browser (recorded in a
    log).  A listener that can raise returns an [outcome] which keeps the
    state reached when the exception left the listener, since the
    assignments made before a throw are not undone. *)

From Stdlib Require Import ZArith Lia.
From Stdlib Require QArith.
From stdpp Require Import base option list gmap strings.

Set Warnings "-register-all".

Local Open Scope Z_scope.

(** ** JavaScript strings

    A string is a sequence of UTF-16 code units; the regular expressions
    of the script have no [u] flag and so work on code units as well. *)

Module Js.

Definition jsstring := list N.

Fixpoint lit (s : string) : jsstring :=
  match s with
  | EmptyString => []
  | String a r => Ascii.N_of_ascii a :: lit r
  end.

(** ToBoolean on a string: only the empty string is falsy. *)
Definition truthy (s : jsstring) : bool :=
  match s with
  | [] => false
  | _ :: _ => true
  end.

(** ToBoolean on a value that is a string or [undefined]. *)
Definition truthy_opt (o : option jsstring) : bool :=
  match o with
  | Some s => truthy s
  | None => false
  end.

(** [a || b] where both sides are a string or [undefined]. *)
Definition or_opt (a b : option jsstring) : option jsstring :=
  if truthy_opt a then a else b.

(** [a || "literal"]. *)
Definition or_default (a : option jsstring) (d : jsstring) : jsstring :=
  match a with
  | Some s => if truthy s then s else d
  | None => d
  end.

(** [a % b] on integers: the sign of the result follows the dividend. *)
Definition rem (a b : Z) : Z := Z.rem a b.

(** [arr[i]] for an integer [i]: [undefined] outside the array. *)
Definition index {A} (arr : list A) (i : Z) : option A :=
  if Z.ltb i 0 then None else arr !! Z.to_nat i.

Definition length {A} (arr : list A) : Z := Z.of_nat (List.length arr).

Definition dq : jsstring := [34%N].

(** WhiteSpace and LineTerminator code units: what [\s] matches and what
    [trim] removes. *)
Definition is_ws (c : N) : bool :=
  bool_decide (c ∈ [9; 10; 11; 12; 13; 32; 160; 5760; 8232; 8233; 8239;
                    8287; 12288; 65279]%N)
  || (N.leb 8192 c && N.leb c 8202).

(** What [\w] matches: ASCII letters, digits and the underscore. *)
Definition is_word (c : N) : bool :=
  (N.leb 48 c && N.leb c 57) || (N.leb 65 c && N.leb c 90)
  || N.eqb c 95 || (N.leb 97 c && N.leb c 122).

Fixpoint trim_start (s : jsstring) : jsstring :=
  match s with
  | [] => []
  | c :: r => if is_ws c then trim_start r else s
  end.

Definition trim (s : jsstring) : jsstring :=
  rev (trim_start (rev (trim_start s))).

End Js.

(** ** Gallery modal ([initGalleryModal]) *)

Module Gallery.
Import Js.

(** An entry of gallery.json. *)
Record Item := {
  type : jsstring;
  src : jsstring;
  alt : option jsstring;
  caption : option jsstring
}.

(** The elements the gallery creates; an image carries its inline
    [display]. *)
Inductive Node :=
| Img (src alt display : jsstring)
| Video (src : jsstring)
| Anchor (href text : jsstring)
| Div (className text : jsstring) (children : list Node)
| Para (text : jsstring).

(** What [#gallery-items] holds: elements appended by the script, or
    markup assigned to [innerHTML] and parsed by the browser. *)
Inductive Content :=
| Nodes (children : list Node)
| Html (markup : jsstring).

Inductive Effect :=
| FetchIssued (url : jsstring)
| ConsoleError (msg : jsstring)
| PauseCalled (src : jsstring)
| Alert (msg : jsstring).

(** What [currentGallery] can hold: an array of the manifest (or the
    [[]] of the fallback), or what a property read on the manifest
    object finds on [Object.prototype] when the manifest has no such key
    of its own: a built-in function, whose [length] is its arity and
    whose indexed properties are undefined, or, under ["__proto__"], the
    prototype object, which has no [length]. *)
Inductive GalleryValue :=
| Items (items : list Item)
| Builtin (arity : nat)
| ObjectPrototype.

(** The properties of [Object.prototype]. *)
Definition object_prototype : list (jsstring * GalleryValue) :=
  [ (lit "constructor", Builtin 1);
    (lit "hasOwnProperty", Builtin 1);
    (lit "isPrototypeOf", Builtin 1);
    (lit "propertyIsEnumerable", Builtin 1);
    (lit "toLocaleString", Builtin 0);
    (lit "toString", Builtin 0);
    (lit "valueOf", Builtin 0);
    (lit "__defineGetter__", Builtin 2);
    (lit "__defineSetter__", Builtin 2);
    (lit "__lookupGetter__", Builtin 1);
    (lit "__lookupSetter__", Builtin 1);
    (lit "__proto__", ObjectPrototype) ].

Fixpoint assoc (name : jsstring) (table : list (jsstring * GalleryValue))
    : option GalleryValue :=
  match table with
  | [] => None
  | (k, v) :: r => if decide (k = name) then Some v else assoc name r
  end.

Definition inherited (name : jsstring) : option GalleryValue :=
  assoc name object_prototype.

(** [allGalleries[category] || []]: an own key wins (an array is truthy
    even when empty), then the prototype, then the fallback. *)
Definition resolve (m : gmap jsstring (list Item)) (category : jsstring) : GalleryValue :=
  match m !! category with
  | Some l => Items l
  | None =>
      match inherited category with
      | Some v => v
      | None => Items []
      end
  end.

(** [!g.length] *)
Definition no_length (g : GalleryValue) : bool :=
  match g with
  | Items l => Z.eqb (Js.length l) 0
  | Builtin a => Z.eqb (Z.of_nat a) 0
  | ObjectPrototype => true
  end.

(** [g.length] where it is a number. *)
Definition len (g : GalleryValue) : Z :=
  match g with
  | Items l => Js.length l
  | Builtin a => Z.of_nat a
  | ObjectPrototype => 0
  end.

(** [g[i]], [None] for undefined. *)
Definition at_index (g : GalleryValue) (i : Z) : option Item :=
  match g with
  | Items l => index l i
  | Builtin _ | ObjectPrototype => None
  end.

(** The closure variables of [initGalleryModal] with the inline styles
    and container it writes. [allGalleries] holds the own properties of
    the parsed manifest, each an array of items as the data contract has
    it. *)
Record State := {
  allGalleries : gmap jsstring (list Item);
  currentGallery : GalleryValue;
  currentIndex : Z;
  currentCategory : jsstring;
  container : Content;
  modalDisplay : jsstring;
  bodyOverflow : jsstring;
  log : list Effect
}.

(** The page around the script: its optional controls, whether
    [pause()] fails on a video, and the source of the first video the
    browser's parser makes of a markup string, if it makes one. *)
Record Page := {
  galleryClose : bool;
  galleryPrev : bool;
  galleryNext : bool;
  pauseFails : jsstring -> bool;
  videoInMarkup : jsstring -> option jsstring
}.

(** How the handling of an event ends: normally, or with an exception
    leaving a listener (the browser reports it and carries on with the
    state reached). *)
Inductive outcome :=
| Done (s : State)
| Raised (s : State).

Definition state_of (o : outcome) : State :=
  match o with
  | Done s => s
  | Raised s => s
  end.

Definition raised (o : outcome) : bool :=
  match o with
  | Done _ => false
  | Raised _ => true
  end.

(** State right after [initGalleryModal] has run: the fetch is issued and
    not yet settled. *)
Definition init (display overflow : jsstring) : State :=
  {| allGalleries := ∅;
     currentGallery := Items [];
     currentIndex := 0;
     currentCategory := [];
     container := Nodes [];
     modalDisplay := display;
     bodyOverflow := overflow;
     log := [FetchIssued (lit "gallery.json")] |}.

(** How the promise of [fetch("gallery.json")] settles. [Parsed None] is
    a body that parses to a falsy value such as [null]. *)
Inductive FetchResult :=
| NetworkError
| InvalidJson
| Parsed (data : option (gmap jsstring (list Item))).

Definition set_manifest (m : gmap jsstring (list Item)) (s : State) : State :=
  {| allGalleries := m;
     currentGallery := currentGallery s;
     currentIndex := currentIndex s;
     currentCategory := currentCategory s;
     container := container s;
     modalDisplay := modalDisplay s;
     bodyOverflow := bodyOverflow s;
     log := log s |}.

Definition add_log (e : Effect) (s : State) : State :=
  {| allGalleries := allGalleries s;
     currentGallery := currentGallery s;
     currentIndex := currentIndex s;
     currentCategory := currentCategory s;
     container := container s;
     modalDisplay := modalDisplay s;
     bodyOverflow := bodyOverflow s;
     log := log s ++ [e] |}.

Definition manifestSettled (r : FetchResult) (s : State) : State :=
  match r with
  | Parsed (Some data) => set_manifest data s
  | Parsed None => set_manifest ∅ s
  | NetworkError | InvalidJson =>
      set_manifest ∅ (add_log (ConsoleError (lit "Failed to load gallery.json")) s)
  end.

Definition set_container (c : Content) (s : State) : State :=
  {| allGalleries := allGalleries s;
     currentGallery := currentGallery s;
     currentIndex := currentIndex s;
     currentCategory := currentCategory s;
     container := c;
     modalDisplay := modalDisplay s;
     bodyOverflow := bodyOverflow s;
     log := log s |}.

Definition set_index (i : Z) (s : State) : State :=
  {| allGalleries := allGalleries s;
     currentGallery := currentGallery s;
     currentIndex := i;
     currentCategory := currentCategory s;
     container := container s;
     modalDisplay := modalDisplay s;
     bodyOverflow := bodyOverflow s;
     log := log s |}.

Definition set_session (cat : jsstring) (g : GalleryValue) (s : State) : State :=
  {| allGalleries := allGalleries s;
     currentGallery := g;
     currentIndex := currentIndex s;
     currentCategory := cat;
     container := container s;
     modalDisplay := modalDisplay s;
     bodyOverflow := bodyOverflow s;
     log := log s |}.

Definition set_styles (display overflow : jsstring) (s : State) : State :=
  {| allGalleries := allGalleries s;
     currentGallery := currentGallery s;
     currentIndex := currentIndex s;
     currentCategory := currentCategory s;
     container := container s;
     modalDisplay := display;
     bodyOverflow := overflow;
     log := log s |}.

(** The element built for an item by [showGalleryItem]. *)
Definition media (cat : jsstring) (item : Item) : Node :=
  if decide (type item = lit "image") then
    Img (src item) (or_default (alt item) (cat ++ lit " image")) (lit "block")
  else if decide (type item = lit "video") then
    Video (src item)
  else if decide (type item = lit "application" ∨ type item = lit "pdf") then
    Anchor (src item) (or_default (caption item) (lit "View Document"))
  else
    Div (lit "image-placeholder") (lit "Unsupported media type") [].

Definition wrapper (cat : jsstring) (item : Item) : Node :=
  Div [] []
    (media cat item ::
     if truthy_opt (caption item) then [Para (default [] (caption item))] else []).

Definition showGalleryItem (s : State) : outcome :=
  let s1 := set_container (Nodes []) s in
  if no_length (currentGallery s1) then Done s1
  else
    match at_index (currentGallery s1) (currentIndex s1) with
    | None => Raised s1            (* item is undefined: item.type throws *)
    | Some item => Done (set_container (Nodes [wrapper (currentCategory s1) item]) s1)
    end.

(** The placeholder of [handleImageError]. *)
Definition image_placeholder : Node :=
  Div (lit "image-placeholder") (lit "Image not available") [].

(** [el.onerror = () => handleImageError(el)] seen from the wrapper the
    image was appended to first: the image is hidden and the placeholder
    put right after it. *)
Definition handleImageError (w : Node) : Node :=
  match w with
  | Div cls txt (Img s a _ :: rest) =>
      Div cls txt (Img s a (lit "none") :: image_placeholder :: rest)
  | _ => w
  end.

(** The error event of the image on screen. *)
Definition imageError (s : State) : State :=
  match container s with
  | Nodes [w] => set_container (Nodes [handleImageError w]) s
  | _ => s
  end.

(** A [.project-card] bound by the gallery: its two data attributes. *)
Record Card := {
  data_project : option jsstring;
  data_gallery : option jsstring
}.

(** The template literal assigned to [innerHTML] when a category has no
    items; [dq] is the double quote. *)
Definition no_items_message (category : jsstring) : jsstring :=
  lit "<div class=" ++ dq ++ lit "image-placeholder" ++ dq
  ++ lit " style=" ++ dq ++ lit "padding:2rem;" ++ dq
  ++ lit ">No gallery items found for " ++ dq ++ category ++ dq ++ lit "</div>".

(** Click listener of a card; [on_thumbnail] tells whether the event
    target carries the class certificate-thumbnail. *)
Definition cardClick (card : Card) (on_thumbnail : bool) (s : State) : outcome :=
  if on_thumbnail then Done s
  else
    match or_opt (data_project card) (data_gallery card) with
    | None => Done s
    | Some category =>
        if negb (truthy category) then Done s
        else
          let s1 := set_session category (resolve (allGalleries s) category) s in
          if no_length (currentGallery s1) then
            Done (set_styles (lit "flex") (lit "hidden")
                    (set_container (Html (no_items_message category)) s1))
          else
            match showGalleryItem (set_index 0 s1) with
            | Raised s2 => Raised s2
            | Done s2 => Done (set_styles (lit "flex") (lit "hidden") s2)
            end
    end.

(** First video below a node, in document order. *)
Fixpoint find_video (n : Node) : option jsstring :=
  match n with
  | Video v => Some v
  | Div _ _ children =>
      (fix first (l : list Node) : option jsstring :=
         match l with
         | [] => None
         | c :: r => match find_video c with
                     | Some v => Some v
                     | None => first r
                     end
         end) children
  | Img _ _ _ | Anchor _ _ | Para _ => None
  end.

Fixpoint first_video (l : list Node) : option jsstring :=
  match l with
  | [] => None
  | c :: r => match find_video c with
              | Some v => Some v
              | None => first_video r
              end
  end.

(** [galleryItemsContainer.querySelector("video")] *)
Definition querySelector_video (pg : Page) (c : Content) : option jsstring :=
  match c with
  | Nodes l => first_video l
  | Html markup => videoInMarkup pg markup
  end.

(** [video.pause()], which the page may make fail. *)
Definition pause (pg : Page) (v : jsstring) (s : State) : outcome :=
  if pauseFails pg v then Raised (add_log (PauseCalled v) s)
  else Done (add_log (PauseCalled v) s).

Definition closeGallery (pg : Page) (s : State) : outcome :=
  let s1 :=
    match querySelector_video pg (container s) with
    | Some v => state_of (pause pg v s)   (* try { video.pause(); } catch (_) {} *)
    | None => s
    end in
  Done {| allGalleries := allGalleries s1;
          currentGallery := Items [];
          currentIndex := 0;
          currentCategory := [];
          container := Nodes [];
          modalDisplay := lit "none";
          bodyOverflow := lit "auto";
          log := log s1 |}.

Definition prevListener (s : State) : outcome :=
  if no_length (currentGallery s) then Done s
  else
    showGalleryItem
      (set_index (rem (currentIndex s - 1 + len (currentGallery s))
                      (len (currentGallery s))) s).

Definition nextListener (s : State) : outcome :=
  if no_length (currentGallery s) then Done s
  else
    showGalleryItem
      (set_index (rem (currentIndex s + 1) (len (currentGallery s))) s).

(** Clicks on the optional controls: [x?.addEventListener] registers the
    listener only when the control exists. *)
Definition prevClick (pg : Page) (s : State) : outcome :=
  if galleryPrev pg then prevListener s else Done s.

Definition nextClick (pg : Page) (s : State) : outcome :=
  if galleryNext pg then nextListener s else Done s.

Definition closeClick (pg : Page) (s : State) : outcome :=
  if galleryClose pg then closeGallery pg s else Done s.

(** Click that reaches the modal element itself. *)
Definition modalClick (pg : Page) (on_backdrop : bool) (s : State) : outcome :=
  if on_backdrop then closeGallery pg s else Done s.

Definition keydown (pg : Page) (key : jsstring) (s : State) : outcome :=
  if decide (modalDisplay s = lit "flex") then
    if decide (key = lit "Escape") then closeGallery pg s
    else if decide (key = lit "ArrowRight") then nextClick pg s
    else if decide (key = lit "ArrowLeft") then prevClick pg s
    else Done s
  else Done s.

(** User events that reach the gallery's listeners. *)
Inductive Event :=
| CardClick (card : Card) (on_thumbnail : bool)
| PrevClick
| NextClick
| CloseClick
| ModalClick (on_backdrop : bool)
| KeyDown (key : jsstring).

Definition step (pg : Page) (e : Event) (s : State) : outcome :=
  match e with
  | CardClick card t => cardClick card t s
  | PrevClick => prevClick pg s
  | NextClick => nextClick pg s
  | CloseClick => closeClick pg s
  | ModalClick b => modalClick pg b s
  | KeyDown k => keydown pg k s
  end.

Definition is_card_click (e : Event) : bool :=
  match e with
  | CardClick _ _ => true
  | _ => false
  end.

(** Events are handled one after the other; an exception ends its own
    listener only. *)
Definition run (pg : Page) (es : list Event) (s : State) : State :=
  fold_left (fun st e => state_of (step pg e st)) es s.

(** Every transition of the component: a user event, the manifest
    promise settling, or the image on screen failing to load. *)
Inductive Transition :=
| User (e : Event)
| Settled (r : FetchResult)
| ImageFailed.

Definition transition (pg : Page) (t : Transition) (s : State) : State :=
  match t with
  | User e => state_of (step pg e s)
  | Settled r => manifestSettled r s
  | ImageFailed => imageError s
  end.

Definition exec (pg : Page) (ts : list Transition) (s : State) : State :=
  fold_left (fun st t => transition pg t st) ts s.

Definition is_fetch (e : Effect) : bool :=
  match e with
  | FetchIssued _ => true
  | _ => false
  end.

Definition is_alert (e : Effect) : bool :=
  match e with
  | Alert _ => true
  | _ => false
  end.

(** The category a card opens: [card.dataset.project || card.dataset.gallery],
    when that is truthy. *)
Definition category_of (card : Card) : option jsstring :=
  match or_opt (data_project card) (data_gallery card) with
  | Some c => if truthy c then Some c else None
  | None => None
  end.

(** The session invariant of the data model: with a gallery that has a
    non-zero length the index is a position in it. *)
Definition in_bounds (s : State) : Prop :=
  no_length (currentGallery s) = false →
  0 ≤ currentIndex s < len (currentGallery s).

(** Number of media elements (img, video, a, or a placeholder) below a
    node; caption paragraphs hold none. *)
Fixpoint media_count (n : Node) : nat :=
  match n with
  | Img _ _ _ | Video _ | Anchor _ _ => 1
  | Div cls _ children =>
      if decide (cls = lit "image-placeholder") then 1
      else (fix sum (l : list Node) : nat :=
              match l with
              | [] => 0
              | c :: r => media_count c + sum r
              end) children
  | Para _ => 0
  end%nat.

Definition media_total (l : list Node) : nat :=
  foldr (fun n acc => (media_count n + acc)%nat) 0%nat l.

End Gallery.

(** ** Certificate modal ([initCertificateModal]) *)

Module Certificate.
Import Js.

(** A download started through the temporary anchor: [href] and
    [download] attribute at the time of [link.click()]. *)
Record Download := {
  href : jsstring;
  filename : jsstring
}.

Record State := {
  currentCertificateUrl : jsstring;
  currentCertificateTitle : jsstring;
  imgSrc : jsstring;          (* certImg.src *)
  titleText : jsstring;       (* certTitle.textContent *)
  modalDisplay : jsstring;    (* certModal.style.display *)
  modalOpacity : jsstring;    (* certModal.style.opacity *)
  bodyOverflow : jsstring;
  pendingFadeIn : nat;        (* setTimeout(..., 10) not yet run *)
  pendingHide : nat;          (* setTimeout(..., 300) not yet run *)
  anchors : nat;              (* anchors created by the download listener *)
  downloads : list Download
}.

Record Page := {
  certTitle : bool;
  certClose : bool;
  downloadBtn : bool
}.

Inductive outcome :=
| Done (s : State)
| Raised (s : State).

Definition state_of (o : outcome) : State :=
  match o with
  | Done s => s
  | Raised s => s
  end.

Definition init (display overflow : jsstring) : State :=
  {| currentCertificateUrl := [];
     currentCertificateTitle := [];
     imgSrc := [];
     titleText := [];
     modalDisplay := display;
     modalOpacity := lit "0";
     bodyOverflow := overflow;
     pendingFadeIn := 0;
     pendingHide := 0;
     anchors := 0;
     downloads := [] |}.

(** Click on a thumbnail whose [src] is [url]; [heading] is the text of
    the heading of the enclosing card, if there is one. *)
Definition thumbnailClick (pg : Page) (url : jsstring) (heading : option jsstring)
    (s : State) : outcome :=
  let title := match heading with
               | Some t => trim t
               | None => lit "Certificate"
               end in
  let s1 := {| currentCertificateUrl := url;
               currentCertificateTitle := title;
               imgSrc := url;
               titleText := titleText s;
               modalDisplay := modalDisplay s;
               modalOpacity := modalOpacity s;
               bodyOverflow := bodyOverflow s;
               pendingFadeIn := pendingFadeIn s;
               pendingHide := pendingHide s;
               anchors := anchors s;
               downloads := downloads s |} in
  if certTitle pg then
    Done {| currentCertificateUrl := url;
            currentCertificateTitle := title;
            imgSrc := url;
            titleText := title;
            modalDisplay := lit "block";
            modalOpacity := modalOpacity s;
            bodyOverflow := lit "hidden";
            pendingFadeIn := S (pendingFadeIn s);
            pendingHide := pendingHide s;
            anchors := anchors s;
            downloads := downloads s |}
  else Raised s1.

Definition fadeInTimer (s : State) : State :=
  match pendingFadeIn s with
  | O => s
  | S k =>
      {| currentCertificateUrl := currentCertificateUrl s;
         currentCertificateTitle := currentCertificateTitle s;
         imgSrc := imgSrc s;
         titleText := titleText s;
         modalDisplay := modalDisplay s;
         modalOpacity := lit "1";
         bodyOverflow := bodyOverflow s;
         pendingFadeIn := k;
         pendingHide := pendingHide s;
         anchors := anchors s;
         downloads := downloads s |}
  end.

Definition closeCertificateModal (s : State) : State :=
  {| currentCertificateUrl := currentCertificateUrl s;
     currentCertificateTitle := currentCertificateTitle s;
     imgSrc := imgSrc s;
     titleText := titleText s;
     modalDisplay := modalDisplay s;
     modalOpacity := lit "0";
     bodyOverflow := bodyOverflow s;
     pendingFadeIn := pendingFadeIn s;
     pendingHide := S (pendingHide s);
     anchors := anchors s;
     downloads := downloads s |}.

(** The callback scheduled by [closeCertificateModal]. *)
Definition hideTimer (s : State) : State :=
  match pendingHide s with
  | O => s
  | S k =>
      {| currentCertificateUrl := [];
         currentCertificateTitle := [];
         imgSrc := [];
         titleText := titleText s;
         modalDisplay := lit "none";
         modalOpacity := modalOpacity s;
         bodyOverflow := lit "auto";
         pendingFadeIn := pendingFadeIn s;
         pendingHide := k;
         anchors := anchors s;
         downloads := downloads s |}
  end.

(** [s.replace(/\s+/g, "_")]: every maximal run of white space becomes
    one underscore; [in_run] tells that the previous unit was white space. *)
Fixpoint replace_ws_runs (in_run : bool) (s : jsstring) : jsstring :=
  match s with
  | [] => []
  | c :: r =>
      if is_ws c then
        if in_run then replace_ws_runs true r
        else 95%N :: replace_ws_runs true r
      else c :: replace_ws_runs false r
  end.

(** The class [[^\w\-_.]] matches what [kept] rejects. *)
Definition kept (c : N) : bool :=
  is_word c || N.eqb c 45 || N.eqb c 95 || N.eqb c 46.

(** [s.replace(/[^\w\-_.]/g, "")]. *)
Definition strip_unkept (s : jsstring) : jsstring := List.filter kept s.

Definition safeTitle (title : jsstring) : jsstring :=
  strip_unkept
    (replace_ws_runs false (if truthy title then title else lit "certificate")).

Definition download_name (title : jsstring) : jsstring :=
  safeTitle title ++ lit ".jpg".

Definition downloadListener (s : State) : State :=
  if truthy (currentCertificateUrl s) then
    {| currentCertificateUrl := currentCertificateUrl s;
       currentCertificateTitle := currentCertificateTitle s;
       imgSrc := imgSrc s;
       titleText := titleText s;
       modalDisplay := modalDisplay s;
       modalOpacity := modalOpacity s;
       bodyOverflow := bodyOverflow s;
       pendingFadeIn := pendingFadeIn s;
       pendingHide := pendingHide s;
       anchors := S (anchors s);
       downloads := downloads s ++
         [{| href := currentCertificateUrl s;
             filename := download_name (currentCertificateTitle s) |}] |}
  else s.

Definition downloadClick (pg : Page) (s : State) : State :=
  if downloadBtn pg then downloadListener s else s.

Definition keydown (key : jsstring) (s : State) : State :=
  if decide (key = lit "Escape") then
    if decide (modalDisplay s = lit "block") then closeCertificateModal s else s
  else s.

Inductive Event :=
| ThumbnailClick (url : jsstring) (heading : option jsstring)
| CloseClick
| ModalClick (on_backdrop : bool)
| KeyDown (key : jsstring)
| DownloadClick
| FadeInTimer
| HideTimer.

Definition step (pg : Page) (e : Event) (s : State) : outcome :=
  match e with
  | ThumbnailClick url h => thumbnailClick pg url h s
  | CloseClick => Done (if certClose pg then closeCertificateModal s else s)
  | ModalClick b => Done (if b then closeCertificateModal s else s)
  | KeyDown k => Done (keydown k s)
  | DownloadClick => Done (downloadClick pg s)
  | FadeInTimer => Done (fadeInTimer s)
  | HideTimer => Done (hideTimer s)
  end.

Definition run (pg : Page) (es : list Event) (s : State) : State :=
  fold_left (fun st e => state_of (step pg e st)) es s.

Definition is_open_event (e : Event) : bool :=
  match e with
  | ThumbnailClick _ _ => true
  | _ => false
  end.

(** The sanitization as the specification words it: white space
    collapsed to underscores, then every non-word character removed. *)
Definition spec_download_name (title : jsstring) : jsstring :=
  List.filter is_word (replace_ws_runs false title) ++ lit ".jpg".

(** The sanitization in one pass over the title: a run of white space
    gives one underscore, a word character, hyphen or dot is copied, and
    anything else is dropped. *)
Fixpoint sanitize_pass (in_run : bool) (s : jsstring) : jsstring :=
  match s with
  | [] => []
  | c :: r =>
      if is_ws c then
        if in_run then sanitize_pass true r else 95%N :: sanitize_pass true r
      else if is_word c || N.eqb c 45 || N.eqb c 46 then c :: sanitize_pass false r
      else sanitize_pass false r
  end.

End Certificate.

(** ** Filters ([initFilters]) *)

Module Filters.
Import Js.

(** A card of the filtered collection: its three data attributes, its
    inline [display] and whether it carries the class fade-in. *)
Record Item := {
  data_category : option jsstring;
  data_project : option jsstring;
  data_gallery : option jsstring;
  display : jsstring;
  fade_in : bool
}.

Record Button := {
  data_filter : option jsstring;   (* [getAttribute] gives null when absent *)
  active : bool
}.

Record State := {
  filterBtns : list Button;
  items : list Item
}.

(** [item.dataset.category || item.dataset.project || item.dataset.gallery || ""] *)
Definition cat (item : Item) : jsstring :=
  or_default
    (or_opt (or_opt (data_category item) (data_project item)) (data_gallery item))
    [].

Definition apply_filter (filter : option jsstring) (item : Item) : Item :=
  if bool_decide (filter = Some (lit "all")) || bool_decide (Some (cat item) = filter) then
    {| data_category := data_category item;
       data_project := data_project item;
       data_gallery := data_gallery item;
       display := [];
       fade_in := true |}
  else
    {| data_category := data_category item;
       data_project := data_project item;
       data_gallery := data_gallery item;
       display := lit "none";
       fade_in := false |}.

Definition set_active (k : nat) (btns : list Button) : list Button :=
  imap (fun i b => {| data_filter := data_filter b; active := bool_decide (i = k) |}) btns.

(** Click on the [k]-th filter button. No listener exists when the
    initializer found no button or no item. *)
Definition click (k : nat) (s : State) : State :=
  match filterBtns s, items s with
  | [], _ | _, [] => s
  | _, _ =>
      match filterBtns s !! k with
      | None => s
      | Some btn =>
          {| filterBtns := set_active k (filterBtns s);
             items := map (apply_filter (data_filter btn)) (items s) |}
      end
  end.

(** The tag as the specification words it: the value of the first of
    the three attributes that is present. *)
Definition spec_tag (item : Item) : jsstring :=
  match data_category item, data_project item, data_gallery item with
  | Some v, _, _ => v
  | None, Some v, _ => v
  | None, None, Some v => v
  | None, None, None => []
  end.

Definition shown (item : Item) : Prop := display item = [].
Definition hidden (item : Item) : Prop := display item = lit "none".

End Filters.

(** ** Contact form ([initContactFormSubmission]) *)

Module Contact.
Import Js.

(** Values produced by [res.json()]. Numbers are kept as integers, which
    is all their truthiness needs. *)
Inductive JsValue :=
| JNull
| JBool (b : bool)
| JNum (z : Z)
| JStr (s : jsstring)
| JArr (elems : list JsValue)
| JObj (fields : list (jsstring * JsValue)).

Definition truthy_value (v : JsValue) : bool :=
  match v with
  | JNull => false
  | JBool b => b
  | JNum z => negb (Z.eqb z 0)
  | JStr s => truthy s
  | JArr _ | JObj _ => true
  end.

(** Own property of a parsed object; of repeated keys the last one
    stays. *)
Fixpoint field (k : jsstring) (fields : list (jsstring * JsValue)) : option JsValue :=
  match fields with
  | [] => None
  | (k', v) :: r =>
      match field k r with
      | Some w => Some w
      | None => if decide (k' = k) then Some v else None
      end
  end.

(** [json.message] for a non-null [json]. *)
Definition message_of (json : JsValue) : option JsValue :=
  match json with
  | JObj fields => field (lit "message") fields
  | _ => None
  end.

(** How the POST ends: the fetch rejects, or a response arrives whose
    body either parses or makes [res.json()] reject. *)
Inductive Response :=
| Rejected
| Arrived (ok : bool) (body : option JsValue).

Inductive Effect :=
| Post (endpoint : jsstring)
| Alert (msg : JsValue)
| FormReset
| ConsoleError (msg : jsstring).

Record Form := {
  action : option jsstring;   (* [getAttribute("action")] *)
  loading : bool;             (* class loading *)
  effects : list Effect
}.

Definition success_text : jsstring := lit "Your message has been sent successfully!".
Definition generic_text : jsstring := lit "Error sending message. Please try again later.".
Definition network_text : jsstring :=
  lit "An error occurred while sending your message. Please try again.".

(** Up to the first [await]: the request leaves for the form's action,
    or for "#" without one. *)
Definition submitStart (f : Form) : Form :=
  {| action := action f;
     loading := true;
     effects := effects f ++ [Post (or_default (action f) (lit "#"))] |}.

(** The message the failure branch alerts. *)
Definition failure_message (body : option JsValue) : JsValue :=
  match body with
  | Some json =>
      if truthy_value json then
        match message_of json with
        | Some m => if truthy_value m then m else JStr generic_text
        | None => JStr generic_text
        end
      else JStr generic_text
  | None => JStr generic_text
  end.

(** What the listener emits once the request has settled. *)
Definition emitted (r : Response) : list Effect :=
  match r with
  | Arrived true _ => [Alert (JStr success_text); FormReset]
  | Arrived false body => [Alert (failure_message body)]
  | Rejected => [ConsoleError (lit "Contact form error:"); Alert (JStr network_text)]
  end.

(** From the first [await] to the end of the [finally] block. *)
Definition submitSettle (r : Response) (f : Form) : Form :=
  {| action := action f; loading := false; effects := effects f ++ emitted r |}.

Definition submit (r : Response) (f : Form) : Form :=
  submitSettle r (submitStart f).

Definition is_alert (e : Effect) : bool :=
  match e with
  | Alert _ => true
  | _ => false
  end.

Definition is_reset (e : Effect) : bool :=
  match e with
  | FormReset => true
  | _ => false
  end.

Definition failure (r : Response) : Prop :=
  match r with
  | Arrived true _ => False
  | _ => True
  end.

End Contact.

(** ** Sample pages used to exercise the model *)

Module Samples.
Import Js Gallery.

(** A page with every control, on which [pause()] succeeds and markup
    holds no video. *)
Definition full_page : Page :=
  {| galleryClose := true; galleryPrev := true; galleryNext := true;
     pauseFails := fun _ => false; videoInMarkup := fun _ => None |}.

(** The same page with a [pause()] that always fails. *)
Definition stubborn_page : Page :=
  {| galleryClose := true; galleryPrev := true; galleryNext := true;
     pauseFails := fun _ => true; videoInMarkup := fun _ => None |}.

Definition photo (name : string) : Item :=
  {| type := lit "image"; src := lit name; alt := None; caption := None |}.

Definition clip (name : string) : Item :=
  {| type := lit "video"; src := lit name; alt := None; caption := Some (lit "demo") |}.

Definition demo_manifest : gmap jsstring (list Item) :=
  {[ lit "robots" := [photo "a.png"; clip "b.mp4"; photo "c.png"] ]}.

Definition robots_card : Card :=
  {| data_project := Some (lit "robots"); data_gallery := None |}.

(** A card whose category is the name of a built-in of Object.prototype. *)
Definition constructor_card : Card :=
  {| data_project := Some (lit "constructor"); data_gallery := None |}.

Definition loaded : State :=
  manifestSettled (Parsed (Some demo_manifest)) (init [] []).

Definition opened : State := state_of (cardClick robots_card false loaded).

End Samples.

(** ** What the gallery shows

    The container reflects the session: while an array with items is
    loaded the container holds the wrapper of the item at the current
    index, on which the image-error handler may have run, and the modal
    is displayed over a page that does not scroll. *)

Module GalleryView.
Import Js Gallery.

Definition shows_current (s : State) : Prop :=
  ∀ g, currentGallery s = Items g → g ≠ [] →
  ∃ item (n : nat), index g (currentIndex s) = Some item
    ∧ container s = Nodes [Nat.iter n handleImageError (wrapper (currentCategory s) item)]
    ∧ modalDisplay s = lit "flex" ∧ bodyOverflow s = lit "hidden".

Definition consistent (s : State) : Prop := in_bounds s ∧ shows_current s.

(** [k] clicks on the next control. *)
Definition next_times (k : nat) (s : State) : State :=
  Nat.iter k (fun st => state_of (nextListener st)) s.

End GalleryView.

(** ** Navigation highlighting ([initNavHighlighting]) *)

Module Nav.
Import Js.

(** A [section[id]] element: its id and its [offsetTop]. *)
Record Sect := {
  id : jsstring;
  offsetTop : Z
}.

(** A link of [.nav-links]: its href ([getAttribute] gives null when
    absent), the class active and the attribute aria-current. *)
Record Link := {
  href : option jsstring;
  active : bool;
  aria_current : option jsstring
}.

(** [pageYOffset >= section.offsetTop - 100]; the scroll offset may be
    fractional. *)
Definition passed (pageYOffset : QArith_base.Q) (sec : Sect) : bool :=
  QArith_base.Qle_bool (QArith_base.inject_Z (offsetTop sec - 100)) pageYOffset.

(** The first loop of [highlightNavOnScroll]. *)
Definition current (pageYOffset : QArith_base.Q) (sections : list Sect) : jsstring :=
  fold_left (fun cur sec => if passed pageYOffset sec then id sec else cur) sections [].

(** The same loop started from any value of [current]. *)
Definition scan (pageYOffset : QArith_base.Q) (cur : jsstring) (sections : list Sect)
    : jsstring :=
  fold_left (fun c sec => if passed pageYOffset sec then id sec else c) sections cur.

(** The body of the second loop. *)
Definition mark (cur : jsstring) (link : Link) : Link :=
  if bool_decide (href link = Some (lit "#" ++ cur)) then
    {| href := href link; active := true; aria_current := Some (lit "page") |}
  else
    {| href := href link; active := false; aria_current := None |}.

Definition highlightNavOnScroll (pageYOffset : QArith_base.Q) (sections : list Sect)
    (navLinks : list Link) : list Link :=
  map (mark (current pageYOffset sections)) navLinks.

(** Number of sections whose threshold the scroll offset has reached. *)
Definition passed_count (pageYOffset : QArith_base.Q) (sections : list Sect) : nat :=
  List.length (List.filter (passed pageYOffset) sections).

(** Sections laid out top to bottom in document order. *)
Fixpoint top_to_bottom (sections : list Sect) : Prop :=
  match sections with
  | [] => True
  | a :: r => Forall (fun b => offsetTop a ≤ offsetTop b) r ∧ top_to_bottom r
  end.

(** The id of the last section of a list, [""] for none. *)
Definition last_id (sections : list Sect) : jsstring :=
  from_option id [] (last sections).

End Nav.

(** ** Broken-image fallback ([handleImageError]) *)

Module ImageFallback.
Import Js.

(** A child of the image's parent. *)
Record Elem := {
  tag : jsstring;
  className : jsstring;
  text : jsstring;
  display : jsstring      (* style.display *)
}.

Definition placeholder : Elem :=
  {| tag := lit "div";
     className := lit "image-placeholder";
     text := lit "Image not available";
     display := lit "flex" |}.

Definition hide (e : Elem) : Elem :=
  {| tag := tag e; className := className e; text := text e; display := lit "none" |}.

(** [handleImageError(img)] seen from the parent of [img]: [parent] is
    the child list of [img.parentNode], or [None] for a detached image,
    and [i] the position of [img] in it. *)
Definition handleImageError (parent : option (list Elem)) (i : nat) : option (list Elem) :=
  match parent with
  | None => None
  | Some kids =>
      let kids1 := alter hide i kids in
      match kids1 !! S i with
      | Some _ =>                                   (* insertBefore(placeholder, img.nextSibling) *)
          Some (take (S i) kids1 ++ placeholder :: drop (S i) kids1)
      | None => Some (kids1 ++ [placeholder])       (* appendChild(placeholder) *)
      end
  end.

End ImageFallback.

(** * Properties of the gallery modal *)

Section GalleryFacts.
Import Js Gallery Samples.

Implicit Types (s : State) (pg : Page) (e : Event) (card : Card) (g : list Item).

Lemma length_zero_nil {A} (l : list A) : Js.length l = 0 ↔ l = [].
Proof.
  unfold Js.length. destruct l as [|x l]; simpl; split; intros H; try done; lia.
Qed.

Lemma index_in_range {A} (l : list A) (i : Z) :
  0 ≤ i < Js.length l → is_Some (index l i).
Proof.
  unfold index, Js.length. intros [Hlo Hhi].
  destruct (Z.ltb_spec i 0) as [Hneg|_]; [lia|].
  apply lookup_lt_is_Some. lia.
Qed.

Lemma length_pos {A} (l : list A) : l ≠ [] → 0 < Js.length l.
Proof. unfold Js.length. destruct l; [done|]. simpl. lia. Qed.

Lemma rem_is_mod (a n : Z) : 0 ≤ a → 0 < n → rem a n = a mod n.
Proof. intros. unfold rem. apply Z.rem_mod_nonneg; lia. Qed.

Lemma mod_full_turn (i n : Z) : 0 ≤ i < n → (i + n) mod n = i.
Proof.
  intros H. replace (i + n) with (i + 1 * n) by lia.
  rewrite Z_mod_plus_full. apply Z.mod_small. exact H.
Qed.

Lemma mod_minus_one (n : Z) : 0 < n → (0 - 1) mod n = n - 1.
Proof.
  intros H. replace (0 - 1) with (n - 1 + (-1) * n) by lia.
  rewrite Z_mod_plus_full. apply Z.mod_small. lia.
Qed.

Lemma rem_pred_mod (i n : Z) : 0 ≤ i - 1 + n → 0 < n → rem (i - 1 + n) n = (i - 1) mod n.
Proof.
  intros H Hn. rewrite rem_is_mod by lia.
  replace (i - 1 + n) with (i - 1 + 1 * n) by lia. apply Z_mod_plus_full.
Qed.

(** A gallery value with a truthy length has a positive one. *)
Lemma has_length_pos (v : GalleryValue) : no_length v = false → 0 < len v.
Proof.
  destruct v as [l|a|]; simpl; [| |done].
  - intros H%Z.eqb_neq. unfold Js.length in *. lia.
  - intros H%Z.eqb_neq. lia.
Qed.

Lemma items_has_length g : g ≠ [] → no_length (Items g) = false.
Proof. intros H. simpl. apply Z.eqb_neq. pose proof (length_pos g H). lia. Qed.

Lemma items_no_length g : no_length (Items g) = true ↔ g = [].
Proof. simpl. rewrite Z.eqb_eq. apply length_zero_nil. Qed.

(** [showGalleryItem] touches the container only. *)
Lemma show_frame s :
  let s' := state_of (showGalleryItem s) in
  allGalleries s' = allGalleries s ∧ currentGallery s' = currentGallery s
  ∧ currentIndex s' = currentIndex s ∧ currentCategory s' = currentCategory s
  ∧ modalDisplay s' = modalDisplay s ∧ bodyOverflow s' = bodyOverflow s
  ∧ log s' = log s.
Proof.
  unfold showGalleryItem. simpl.
  destruct (no_length (currentGallery s)); simpl; [done|].
  destruct (at_index (currentGallery s) (currentIndex s)); simpl; done.
Qed.

(** Rendering a position of an array. *)
Lemma show_items s g :
  currentGallery s = Items g → 0 ≤ currentIndex s < Js.length g →
  ∃ item, index g (currentIndex s) = Some item
    ∧ showGalleryItem s
      = Done (set_container (Nodes [wrapper (currentCategory s) item])
                (set_container (Nodes []) s)).
Proof.
  intros Hg Hb. destruct (index_in_range _ _ Hb) as [item Hitem].
  exists item. split; [done|].
  unfold showGalleryItem. simpl. rewrite Hg. simpl.
  destruct (Z.eqb_spec (Js.length g) 0) as [Hz|_]; [lia|].
  by rewrite Hitem.
Qed.

(** Rendering an inherited function: its item is undefined. *)
Lemma show_builtin s (a : nat) :
  currentGallery s = Builtin (S a) →
  showGalleryItem s = Raised (set_container (Nodes []) s).
Proof. intros Hg. unfold showGalleryItem. simpl. rewrite Hg. reflexivity. Qed.

Lemma nextListener_has_length s :
  no_length (currentGallery s) = false →
  nextListener s
  = showGalleryItem (set_index (rem (currentIndex s + 1) (len (currentGallery s))) s).
Proof. intros H. unfold nextListener. by rewrite H. Qed.

Lemma prevListener_has_length s :
  no_length (currentGallery s) = false →
  prevListener s
  = showGalleryItem
      (set_index (rem (currentIndex s - 1 + len (currentGallery s))
                      (len (currentGallery s))) s).
Proof. intros H. unfold prevListener. by rewrite H. Qed.

Lemma next_index s :
  no_length (currentGallery s) = false →
  currentIndex (state_of (nextListener s))
    = rem (currentIndex s + 1) (len (currentGallery s))
  ∧ currentGallery (state_of (nextListener s)) = currentGallery s.
Proof.
  intros Hne. rewrite (nextListener_has_length s Hne).
  pose proof (show_frame
    (set_index (rem (currentIndex s + 1) (len (currentGallery s))) s)) as H.
  simpl in H. destruct H as (_ & Hg & Hi & _). by rewrite Hi, Hg.
Qed.

Lemma prev_index s :
  no_length (currentGallery s) = false →
  currentIndex (state_of (prevListener s))
    = rem (currentIndex s - 1 + len (currentGallery s)) (len (currentGallery s))
  ∧ currentGallery (state_of (prevListener s)) = currentGallery s.
Proof.
  intros Hne. rewrite (prevListener_has_length s Hne).
  pose proof (show_frame
    (set_index (rem (currentIndex s - 1 + len (currentGallery s))
                    (len (currentGallery s))) s)) as H.
  simpl in H. destruct H as (_ & Hg & Hi & _). by rewrite Hi, Hg.
Qed.

(** After [k] clicks on next the index has advanced by [k] modulo the
    length, whatever the valid starting index. *)
Lemma next_iter s (k : nat) :
  no_length (currentGallery s) = false → 0 ≤ currentIndex s < len (currentGallery s) →
  let s' := Nat.iter k (fun st => state_of (nextListener st)) s in
  currentGallery s' = currentGallery s
  ∧ currentIndex s' = (currentIndex s + Z.of_nat k) mod len (currentGallery s).
Proof.
  intros Hne Hb. induction k as [|k IH]; simpl.
  - split; [done|]. rewrite Z.add_0_r, Z.mod_small; lia.
  - destruct IH as [IHg IHi].
    set (sk := Nat.iter k (fun st => state_of (nextListener st)) s) in *.
    assert (no_length (currentGallery sk) = false) as Hk by (by rewrite IHg).
    destruct (next_index sk Hk) as [Hi Hg].
    rewrite Hg, Hi, IHg, IHi. split; [done|].
    pose proof (has_length_pos _ Hne) as Hn.
    rewrite rem_is_mod; [| |done].
    + rewrite Zplus_mod_idemp_l. f_equal. lia.
    + pose proof (Z.mod_pos_bound (currentIndex s + Z.of_nat k) _ Hn). lia.
Qed.

Lemma next_target_bounds (i n : Z) : 0 ≤ i < n → 0 ≤ rem (i + 1) n < n.
Proof. intros H. rewrite rem_is_mod by lia. apply Z.mod_pos_bound. lia. Qed.

Lemma prev_target_bounds (i n : Z) : 0 ≤ i < n → 0 ≤ rem (i - 1 + n) n < n.
Proof. intros H. rewrite rem_is_mod by lia. apply Z.mod_pos_bound. lia. Qed.

Lemma next_in_bounds s : in_bounds s → in_bounds (state_of (nextListener s)).
Proof.
  intros Hinv. destruct (no_length (currentGallery s)) eqn:Hne.
  - unfold nextListener. rewrite Hne. exact Hinv.
  - destruct (next_index s Hne) as [Hi Hg]. intros _. rewrite Hi, Hg.
    apply next_target_bounds. exact (Hinv Hne).
Qed.

Lemma prev_in_bounds s : in_bounds s → in_bounds (state_of (prevListener s)).
Proof.
  intros Hinv. destruct (no_length (currentGallery s)) eqn:Hne.
  - unfold prevListener. rewrite Hne. exact Hinv.
  - destruct (prev_index s Hne) as [Hi Hg]. intros _. rewrite Hi, Hg.
    apply prev_target_bounds. exact (Hinv Hne).
Qed.

(** On an array the navigation listeners do not raise. *)
Lemma next_no_raise s g :
  currentGallery s = Items g → in_bounds s → raised (nextListener s) = false.
Proof.
  intros Hg Hinv. destruct (no_length (currentGallery s)) eqn:Hne.
  - unfold nextListener. by rewrite Hne.
  - rewrite (nextListener_has_length s Hne). specialize (Hinv Hne).
    set (s1 := set_index _ s).
    assert (0 ≤ currentIndex s1 < Js.length g) as Hb1.
    { subst s1. simpl. rewrite Hg in *. simpl in *. by apply next_target_bounds. }
    destruct (show_items s1 g Hg Hb1) as (item & _ & ->). done.
Qed.

Lemma prev_no_raise s g :
  currentGallery s = Items g → in_bounds s → raised (prevListener s) = false.
Proof.
  intros Hg Hinv. destruct (no_length (currentGallery s)) eqn:Hne.
  - unfold prevListener. by rewrite Hne.
  - rewrite (prevListener_has_length s Hne). specialize (Hinv Hne).
    set (s1 := set_index _ s).
    assert (0 ≤ currentIndex s1 < Js.length g) as Hb1.
    { subst s1. simpl. rewrite Hg in *. simpl in *. by apply prev_target_bounds. }
    destruct (show_items s1 g Hg Hb1) as (item & _ & ->). done.
Qed.

(** C1. Navigation is cyclic: in a session whose gallery has a non-zero
    length n and a valid index, n clicks on next lead back to the index
    they started from, one click on prev at index 0 leads to n-1, and
    both listeners compute the new index modulo n; on a gallery that is
    an array of items they do not raise. *)
Theorem gallery_navigation_cyclic s :
  no_length (currentGallery s) = false →
  0 ≤ currentIndex s < len (currentGallery s) →
  let n := len (currentGallery s) in
  currentIndex
    (Nat.iter (Z.to_nat (len (currentGallery s)))
       (fun st => state_of (nextListener st)) s)
    = currentIndex s
  ∧ (currentIndex s = 0 → currentIndex (state_of (prevListener s)) = n - 1)
  ∧ currentIndex (state_of (nextListener s)) = (currentIndex s + 1) mod n
  ∧ currentIndex (state_of (prevListener s)) = (currentIndex s - 1) mod n
  ∧ (∀ g, currentGallery s = Items g →
       Z.to_nat n = List.length g
       ∧ raised (nextListener s) = false ∧ raised (prevListener s) = false).
Proof.
  intros Hne Hb n. pose proof (has_length_pos _ Hne) as Hn.
  assert (in_bounds s) as Hinv by (intros _; exact Hb).
  destruct (next_iter s (Z.to_nat (len (currentGallery s))) Hne Hb) as [_ Hi].
  destruct (next_index s Hne) as [Hnx _]. destruct (prev_index s Hne) as [Hpv _].
  assert (currentIndex (state_of (prevListener s)) = (currentIndex s - 1) mod n) as Hp.
  { rewrite Hpv. apply rem_pred_mod; [lia | exact Hn]. }
  repeat split.
  - rewrite Hi. rewrite Z2Nat.id by lia. apply mod_full_turn. exact Hb.
  - intros H0. rewrite Hp, H0. apply (mod_minus_one n Hn).
  - rewrite Hnx. apply rem_is_mod; lia.
  - exact Hp.
  - subst n. rewrite H. simpl. unfold Js.length. apply Nat2Z.id.
  - by apply (next_no_raise s g).
  - by apply (prev_no_raise s g).
Qed.

Lemma gallery_navigation_cyclic_witness :
  currentIndex
    (Nat.iter 3 (fun st => state_of (nextListener st))
       (state_of (nextListener opened))) = 1
  ∧ currentIndex (state_of (prevListener opened)) = 2.
Proof.
  assert (no_length (currentGallery opened) = false) as Hne by (vm_compute; reflexivity).
  assert (0 ≤ currentIndex opened < len (currentGallery opened)) as Hb
    by (vm_compute; split; discriminate || reflexivity).
  split.
  - set (s1 := state_of (nextListener opened)).
    assert (no_length (currentGallery s1) = false) as Hne1 by (vm_compute; reflexivity).
    assert (0 ≤ currentIndex s1 < len (currentGallery s1)) as Hb1
      by (vm_compute; split; discriminate || reflexivity).
    exact (proj1 (gallery_navigation_cyclic s1 Hne1 Hb1)).
  - exact (proj1 (proj2 (gallery_navigation_cyclic opened Hne Hb)) eq_refl).
Defined.

Lemma category_of_spec card c :
  category_of card = Some c ↔
  or_opt (data_project card) (data_gallery card) = Some c ∧ truthy c = true.
Proof.
  unfold category_of.
  destruct (or_opt (data_project card) (data_gallery card)) as [c'|].
  - destruct (truthy c') eqn:Ht; split.
    + intros [= <-]. done.
    + intros [[= <-] _]. done.
    + done.
    + intros [[= <-] Hc]. congruence.
  - split; [done|]. intros [? _]. done.
Qed.

(** What the prototype offers is never an array of items. *)
Lemma assoc_not_items (name : jsstring) (l : list Item) :
  inherited name ≠ Some (Items l).
Proof.
  unfold inherited, object_prototype. simpl.
  repeat (case_decide; [discriminate|]). discriminate.
Qed.

Lemma resolve_own (m : gmap jsstring (list Item)) (c : jsstring) g :
  m !! c = Some g → resolve m c = Items g.
Proof. intros H. unfold resolve. by rewrite H. Qed.

Lemma resolve_absent (m : gmap jsstring (list Item)) (c : jsstring) :
  m !! c = None → resolve m c = default (Items []) (inherited c).
Proof. intros H. unfold resolve. rewrite H. by destruct (inherited c). Qed.

Lemma resolve_items (m : gmap jsstring (list Item)) (c : jsstring) item rest :
  resolve m c = Items (item :: rest) → m !! c = Some (item :: rest).
Proof.
  unfold resolve. destruct (m !! c) as [l|]; [by intros [= ->]|].
  destruct (inherited c) as [v|] eqn:Hv; [|discriminate].
  intros ->. by apply assoc_not_items in Hv.
Qed.

(** The card listener when the card names no category, or the click
    landed on a certificate thumbnail: nothing happens. *)
Lemma cardClick_ignored card t s :
  t = true ∨ category_of card = None → cardClick card t s = Done s.
Proof.
  unfold cardClick, category_of. intros [->|H]; [done|].
  destruct t; [done|].
  destruct (or_opt (data_project card) (data_gallery card)) as [c|]; [|done].
  destruct (truthy c); [done|done].
Qed.

(** The card listener on a category that resolves to something without
    length. *)
Lemma cardClick_message card s c :
  category_of card = Some c → no_length (resolve (allGalleries s) c) = true →
  cardClick card false s
  = Done (set_styles (lit "flex") (lit "hidden")
            (set_container (Html (no_items_message c))
               (set_session c (resolve (allGalleries s) c) s))).
Proof.
  intros [Hc Ht]%category_of_spec Hg. unfold cardClick.
  rewrite Hc, Ht. simpl. by rewrite Hg.
Qed.

(** The card listener on a category with items. *)
Lemma cardClick_items card s c item rest :
  category_of card = Some c → allGalleries s !! c = Some (item :: rest) →
  cardClick card false s
  = Done (set_styles (lit "flex") (lit "hidden")
            (set_container (Nodes [wrapper c item])
               (set_container (Nodes [])
                  (set_index 0 (set_session c (Items (item :: rest)) s))))).
Proof.
  intros [Hc Ht]%category_of_spec Hg. unfold cardClick.
  rewrite Hc, Ht, (resolve_own _ _ _ Hg). simpl.
  destruct (Z.eqb_spec (Js.length (item :: rest)) 0) as [Hz|_].
  { apply length_zero_nil in Hz. done. }
  unfold showGalleryItem. simpl.
  destruct (Z.eqb_spec (Js.length (item :: rest)) 0) as [Hz|_].
  { apply length_zero_nil in Hz. done. }
  done.
Qed.

(** The card listener on a category that resolves to an inherited
    function with parameters: the listener raises with the container
    emptied, before the modal is displayed. *)
Lemma cardClick_builtin card s c (a : nat) :
  category_of card = Some c → resolve (allGalleries s) c = Builtin (S a) →
  cardClick card false s
  = Raised (set_container (Nodes []) (set_index 0 (set_session c (Builtin (S a)) s))).
Proof.
  intros [Hc Ht]%category_of_spec Hg. unfold cardClick.
  rewrite Hc, Ht, Hg. simpl. reflexivity.
Qed.

Lemma cardClick_cases card t s :
  cardClick card t s = Done s
  ∨ (∃ c, category_of card = Some c ∧ t = false
        ∧ no_length (resolve (allGalleries s) c) = true
        ∧ cardClick card t s
          = Done (set_styles (lit "flex") (lit "hidden")
                    (set_container (Html (no_items_message c))
                       (set_session c (resolve (allGalleries s) c) s))))
  ∨ (∃ c item rest, category_of card = Some c ∧ t = false
        ∧ allGalleries s !! c = Some (item :: rest)
        ∧ cardClick card t s
          = Done (set_styles (lit "flex") (lit "hidden")
                    (set_container (Nodes [wrapper c item])
                       (set_container (Nodes [])
                          (set_index 0 (set_session c (Items (item :: rest)) s))))))
  ∨ (∃ c a, category_of card = Some c ∧ t = false
        ∧ resolve (allGalleries s) c = Builtin (S a)
        ∧ cardClick card t s
          = Raised (set_container (Nodes [])
                      (set_index 0 (set_session c (Builtin (S a)) s)))).
Proof.
  destruct t; [left; by apply cardClick_ignored; left|].
  destruct (category_of card) as [c|] eqn:Hc;
    [|left; by apply cardClick_ignored; right].
  destruct (resolve (allGalleries s) c) as [[|item rest]|[|a]|] eqn:Hg.
  - right; left. exists c. repeat split; try done; [by rewrite Hg|].
    apply cardClick_message; [done|by rewrite Hg].
  - right; right; left. exists c, item, rest.
    pose proof (resolve_items _ _ _ _ Hg) as Hown.
    repeat split; try done. by apply cardClick_items.
  - right; left. exists c. repeat split; try done; [by rewrite Hg|].
    apply cardClick_message; [done|by rewrite Hg].
  - right; right; right. exists c, a. repeat split; try done.
    by apply cardClick_builtin.
  - right; left. exists c. repeat split; try done; [by rewrite Hg|].
    apply cardClick_message; [done|by rewrite Hg].
Qed.

Lemma cardClick_in_bounds card t s :
  in_bounds s → in_bounds (state_of (cardClick card t s)).
Proof.
  intros Hinv.
  destruct (cardClick_cases card t s)
    as [-> | [(c & _ & _ & Hn & ->) | [(c & item & rest & _ & _ & _ & ->)
       | (c & a & _ & _ & _ & ->)]]]; simpl.
  - exact Hinv.
  - intros Hne. simpl in Hne. congruence.
  - intros _. simpl. unfold Js.length. simpl. lia.
  - intros _. simpl. lia.
Qed.

(** The card listener raises exactly on a category that resolves to an
    inherited function with parameters. *)
Lemma cardClick_raises card t s :
  raised (cardClick card t s) = true
  ↔ t = false ∧ ∃ c a, category_of card = Some c
                      ∧ resolve (allGalleries s) c = Builtin (S a).
Proof.
  split.
  - destruct (cardClick_cases card t s)
      as [-> | [(c & _ & _ & _ & ->) | [(c & item & rest & _ & _ & _ & ->)
         | (c & a & Hc & Ht & Hg & ->)]]]; simpl; try discriminate.
    intros _. split; [done|]. by exists c, a.
  - intros [-> (c & a & Hc & Hg)]. by rewrite (cardClick_builtin card s c a Hc Hg).
Qed.

Lemma closeGallery_fields pg s :
  ∃ s', closeGallery pg s = Done s'
    ∧ currentGallery s' = Items [] ∧ currentIndex s' = 0 ∧ currentCategory s' = []
    ∧ container s' = Nodes []
    ∧ modalDisplay s' = lit "none" ∧ bodyOverflow s' = lit "auto"
    ∧ allGalleries s' = allGalleries s
    ∧ log s' = match querySelector_video pg (container s) with
               | Some v => log s ++ [PauseCalled v]
               | None => log s
               end.
Proof.
  unfold closeGallery. eexists. split; [reflexivity|]. simpl.
  repeat split.
  - destruct (querySelector_video pg (container s)) as [v|]; [|done].
    unfold pause. destruct (pauseFails pg v); done.
  - destruct (querySelector_video pg (container s)) as [v|]; [|done].
    unfold pause. destruct (pauseFails pg v); done.
Qed.

Lemma closeGallery_safe pg s :
  raised (closeGallery pg s) = false ∧ in_bounds (state_of (closeGallery pg s)).
Proof.
  destruct (closeGallery_fields pg s) as (s' & -> & Hg & _). simpl.
  split; [done|]. intros Hne. rewrite Hg in Hne. discriminate.
Qed.

Lemma step_in_bounds pg e s : in_bounds s → in_bounds (state_of (step pg e s)).
Proof.
  intros Hinv. destruct e as [card t| | | |b|k]; simpl.
  - by apply cardClick_in_bounds.
  - unfold prevClick. destruct (galleryPrev pg); [by apply prev_in_bounds|done].
  - unfold nextClick. destruct (galleryNext pg); [by apply next_in_bounds|done].
  - unfold closeClick. destruct (galleryClose pg); [apply closeGallery_safe|done].
  - unfold modalClick. destruct b; [apply closeGallery_safe|done].
  - unfold keydown.
    destruct (decide (modalDisplay s = lit "flex")); [|done].
    destruct (decide (k = lit "Escape")); [apply closeGallery_safe|].
    destruct (decide (k = lit "ArrowRight")).
    { unfold nextClick. destruct (galleryNext pg); [by apply next_in_bounds|done]. }
    destruct (decide (k = lit "ArrowLeft")); [|done].
    unfold prevClick. destruct (galleryPrev pg); [by apply prev_in_bounds|done].
Qed.

(** Apart from card clicks nothing raises while the gallery is an array. *)
Lemma step_no_raise pg e s g :
  in_bounds s → currentGallery s = Items g → is_card_click e = false →
  raised (step pg e s) = false.
Proof.
  intros Hinv Hg He. destruct e as [card t| | | |b|k]; simpl; [discriminate| | | | |].
  - unfold prevClick. destruct (galleryPrev pg); [by apply (prev_no_raise s g)|done].
  - unfold nextClick. destruct (galleryNext pg); [by apply (next_no_raise s g)|done].
  - unfold closeClick. destruct (galleryClose pg); [apply closeGallery_safe|done].
  - unfold modalClick. destruct b; [apply closeGallery_safe|done].
  - unfold keydown.
    destruct (decide (modalDisplay s = lit "flex")); [|done].
    destruct (decide (k = lit "Escape")); [apply closeGallery_safe|].
    destruct (decide (k = lit "ArrowRight")).
    { unfold nextClick. destruct (galleryNext pg); [by apply (next_no_raise s g)|done]. }
    destruct (decide (k = lit "ArrowLeft")); [|done].
    unfold prevClick. destruct (galleryPrev pg); [by apply (prev_no_raise s g)|done].
Qed.

Lemma manifestSettled_in_bounds r s : in_bounds s → in_bounds (manifestSettled r s).
Proof. intros H. destruct r as [| |[m|]]; exact H. Qed.

Lemma imageError_frame s :
  allGalleries (imageError s) = allGalleries s
  ∧ currentGallery (imageError s) = currentGallery s
  ∧ currentIndex (imageError s) = currentIndex s
  ∧ currentCategory (imageError s) = currentCategory s
  ∧ modalDisplay (imageError s) = modalDisplay s
  ∧ bodyOverflow (imageError s) = bodyOverflow s
  ∧ log (imageError s) = log s.
Proof.
  unfold imageError. destruct (container s) as [[|w [|w' l]]|m]; done.
Qed.

Lemma imageError_in_bounds s : in_bounds s → in_bounds (imageError s).
Proof.
  intros H. destruct (imageError_frame s) as (_ & Hg & Hi & _).
  unfold in_bounds. by rewrite Hg, Hi.
Qed.

Lemma transition_in_bounds pg t s : in_bounds s → in_bounds (transition pg t s).
Proof.
  intros H. destruct t as [e|r|]; simpl.
  - by apply step_in_bounds.
  - by apply manifestSettled_in_bounds.
  - by apply imageError_in_bounds.
Qed.

Lemma exec_in_bounds pg ts s : in_bounds s → in_bounds (exec pg ts s).
Proof.
  revert s. induction ts as [|t ts IH]; intros s H; simpl; [done|].
  apply IH. by apply transition_in_bounds.
Qed.

(** C2. Session invariant: whenever the current gallery has a non-zero
    length the index lies in [0, length).  It holds after initialization
    and every transition preserves it (user events, the manifest load,
    a failing image), so it holds in every reachable state.  Opening a
    category with items sets the index to 0, prev/next reduce it modulo
    the length, and closing resets category, sequence and index to
    empty/zero.  While the gallery is an array no listener but the card
    listener can raise, and that one raises exactly when the category
    names a function inherited from Object.prototype that takes
    parameters. *)
Theorem gallery_index_invariant pg :
  (∀ d o, in_bounds (init d o))
  ∧ (∀ t s, in_bounds s → in_bounds (transition pg t s))
  ∧ (∀ ts d o, in_bounds (exec pg ts (init d o)))
  ∧ (∀ card s c g, category_of card = Some c → allGalleries s !! c = Some g →
       g ≠ [] →
       currentIndex (state_of (cardClick card false s)) = 0
       ∧ currentGallery (state_of (cardClick card false s)) = Items g)
  ∧ (∀ s, no_length (currentGallery s) = false → in_bounds s →
       currentIndex (state_of (nextListener s))
         = (currentIndex s + 1) mod len (currentGallery s)
       ∧ currentIndex (state_of (prevListener s))
         = (currentIndex s - 1) mod len (currentGallery s))
  ∧ (∀ s, let s' := state_of (closeGallery pg s) in
       currentCategory s' = [] ∧ currentGallery s' = Items [] ∧ currentIndex s' = 0)
  ∧ (∀ e s g, in_bounds s → currentGallery s = Items g → is_card_click e = false →
       raised (step pg e s) = false)
  ∧ (∀ card t s,
       raised (cardClick card t s) = true
       ↔ t = false ∧ ∃ c a, category_of card = Some c
                           ∧ resolve (allGalleries s) c = Builtin (S a)).
Proof.
  assert (∀ d o, in_bounds (init d o)) as Hinit by (intros d o Hne; done).
  split; [exact Hinit|].
  split; [intros t s; apply transition_in_bounds|].
  split; [intros ts d o; apply exec_in_bounds, Hinit|].
  split.
  { intros card s c [|item rest] Hc Hg Hne; [done|].
    by rewrite (cardClick_items card s c item rest Hc Hg). }
  split.
  { intros s Hne Hinv. pose proof (has_length_pos _ Hne) as Hn. specialize (Hinv Hne).
    destruct (next_index s Hne) as [-> _]. destruct (prev_index s Hne) as [-> _].
    split; [apply rem_is_mod; lia | apply rem_pred_mod; lia]. }
  split.
  { intros s. destruct (closeGallery_fields pg s) as (s' & -> & Hg & Hi & Hc & _).
    simpl. done. }
  split; [intros e s g; apply step_no_raise|].
  intros card t s. apply cardClick_raises.
Qed.

Lemma gallery_index_invariant_witness :
  in_bounds (transition full_page (User NextClick) opened)
  ∧ raised (step full_page PrevClick opened) = false
  ∧ currentIndex (state_of (cardClick robots_card false loaded)) = 0
  ∧ currentIndex (state_of (nextListener opened)) = 1
  ∧ raised (cardClick constructor_card false loaded) = true.
Proof.
  pose proof (gallery_index_invariant full_page)
    as (_ & Hstep & Hreach & Hopen & Hnav & _ & Hsafe & Hraise).
  assert (in_bounds opened) as Hinv.
  { apply (Hreach [Settled (Parsed (Some demo_manifest));
                   User (CardClick robots_card false)] [] []). }
  split; [exact (Hstep (User NextClick) opened Hinv)|].
  split.
  { apply (Hsafe PrevClick opened [photo "a.png"; clip "b.mp4"; photo "c.png"] Hinv);
      reflexivity. }
  split.
  { apply (Hopen robots_card loaded (lit "robots")
             [photo "a.png"; clip "b.mp4"; photo "c.png"]);
      [reflexivity | reflexivity | discriminate]. }
  split.
  { assert (no_length (currentGallery opened) = false) as Hne by reflexivity.
    exact (proj1 (Hnav opened Hne Hinv)). }
  apply Hraise. split; [reflexivity|].
  exists (lit "constructor"), 0%nat. split; reflexivity.
Defined.

(** The element built for an item, type by type. *)
Lemma media_by_type (c : jsstring) (item : Item) :
  (type item = lit "image" →
     media c item
     = Img (src item) (or_default (alt item) (c ++ lit " image")) (lit "block"))
  ∧ (type item = lit "video" → media c item = Video (src item))
  ∧ (type item = lit "application" ∨ type item = lit "pdf" →
       media c item = Anchor (src item) (or_default (caption item) (lit "View Document")))
  ∧ (type item ≠ lit "image" → type item ≠ lit "video" →
     type item ≠ lit "application" → type item ≠ lit "pdf" →
       media c item = Div (lit "image-placeholder") (lit "Unsupported media type") []).
Proof.
  unfold media. split; [|split; [|split]].
  - intros H. by rewrite decide_True.
  - intros H. rewrite decide_False by (rewrite H; vm_compute; discriminate).
    by rewrite decide_True.
  - intros H.
    rewrite decide_False by (destruct H as [H|H]; rewrite H; vm_compute; discriminate).
    rewrite decide_False by (destruct H as [H|H]; rewrite H; vm_compute; discriminate).
    by rewrite decide_True.
  - intros H1 H2 H3 H4. rewrite !decide_False; [done| |done|done].
    intros [H|H]; done.
Qed.

Lemma media_is_one (c : jsstring) (item : Item) : media_count (media c item) = 1%nat.
Proof. unfold media. repeat case_decide; reflexivity. Qed.

Lemma wrapper_is_one (c : jsstring) (item : Item) :
  media_total [wrapper c item] = 1%nat.
Proof.
  unfold media_total, wrapper. simpl. rewrite media_is_one.
  destruct (truthy_opt (caption item)); reflexivity.
Qed.

(** What resolves without length when the manifest lacks the category:
    every name but those of the inherited functions with parameters. *)
Lemma absent_no_length (m : gmap jsstring (list Item)) (c : jsstring) :
  m !! c = None → (∀ a, inherited c ≠ Some (Builtin (S a))) →
  no_length (resolve m c) = true.
Proof.
  intros Hm Hb. rewrite (resolve_absent m c Hm).
  destruct (inherited c) as [[l|[|a]|]|] eqn:Hi; simpl; try done.
  - by apply assoc_not_items in Hi.
  - by destruct (Hb a).
Qed.

Lemma absent_builtin (m : gmap jsstring (list Item)) (c : jsstring) (a : nat) :
  m !! c = None → inherited c = Some (Builtin (S a)) → resolve m c = Builtin (S a).
Proof. intros Hm Hi. by rewrite (resolve_absent m c Hm), Hi. Qed.

(** C3. Opening a gallery for a category.  When the manifest maps it to
    a non-empty sequence the index becomes 0 and the container holds one
    wrapper with exactly one media node, the one built for the first
    item according to its type, followed by its caption if it has one.
    When the category maps to the empty sequence, or is absent (also
    from the empty mapping in place before the manifest has loaded) and
    is not the name of an inherited function with parameters, the
    container is given the markup of the message naming the category.
    In these cases the modal is displayed, page scroll is locked and the
    listener does not raise.  When the category is absent and is such a
    name, as "constructor" is, the listener raises with the container
    emptied and the modal left as it was. *)
Theorem open_gallery_postcondition card s c :
  category_of card = Some c →
  (∀ item rest, allGalleries s !! c = Some (item :: rest) →
     ∃ s', cardClick card false s = Done s'
       ∧ currentIndex s' = 0 ∧ currentGallery s' = Items (item :: rest)
       ∧ currentCategory s' = c
       ∧ container s'
         = Nodes [Div [] []
                    (media c item ::
                     if truthy_opt (caption item)
                     then [Para (default [] (caption item))] else [])]
       ∧ media_total [Div [] []
                        (media c item ::
                         if truthy_opt (caption item)
                         then [Para (default [] (caption item))] else [])] = 1%nat
       ∧ (type item = lit "image" →
            media c item
            = Img (src item) (or_default (alt item) (c ++ lit " image")) (lit "block"))
       ∧ (type item = lit "video" → media c item = Video (src item))
       ∧ (type item = lit "application" ∨ type item = lit "pdf" →
            media c item
            = Anchor (src item) (or_default (caption item) (lit "View Document")))
       ∧ (type item ≠ lit "image" → type item ≠ lit "video" →
          type item ≠ lit "application" → type item ≠ lit "pdf" →
            media c item
            = Div (lit "image-placeholder") (lit "Unsupported media type") [])
       ∧ modalDisplay s' = lit "flex" ∧ bodyOverflow s' = lit "hidden")
  ∧ (allGalleries s !! c = Some []
     ∨ (allGalleries s !! c = None ∧ ∀ a, inherited c ≠ Some (Builtin (S a))) →
     ∃ s', cardClick card false s = Done s'
       ∧ no_length (currentGallery s') = true
       ∧ currentCategory s' = c
       ∧ container s'
         = Html (lit "<div class=" ++ dq ++ lit "image-placeholder" ++ dq
                 ++ lit " style=" ++ dq ++ lit "padding:2rem;" ++ dq
                 ++ lit ">No gallery items found for " ++ dq ++ c ++ dq
                 ++ lit "</div>")
       ∧ modalDisplay s' = lit "flex" ∧ bodyOverflow s' = lit "hidden")
  ∧ (∀ a, allGalleries s !! c = None → inherited c = Some (Builtin (S a)) →
     ∃ s', cardClick card false s = Raised s'
       ∧ currentGallery s' = Builtin (S a) ∧ currentIndex s' = 0
       ∧ container s' = Nodes []
       ∧ modalDisplay s' = modalDisplay s ∧ bodyOverflow s' = bodyOverflow s)
  ∧ inherited (lit "constructor") = Some (Builtin 1).
Proof.
  intros Hc. split; [|split; [|split]].
  - intros item rest Hg. eexists. split; [by apply cardClick_items|]. simpl.
    destruct (media_by_type c item) as (H1 & H2 & H3 & H4).
    repeat split; try done. apply (wrapper_is_one c item).
  - intros Hg. eexists. split.
    + apply cardClick_message; [done|].
      destruct Hg as [Hg|[Hg Hb]].
      * by rewrite (resolve_own _ _ _ Hg).
      * by apply absent_no_length.
    + simpl. repeat split.
      destruct Hg as [Hg|[Hg Hb]].
      * by rewrite (resolve_own _ _ _ Hg).
      * by apply absent_no_length.
  - intros a Hg Hi. eexists. split.
    + apply (cardClick_builtin card s c a Hc). by apply absent_builtin.
    + simpl. done.
  - reflexivity.
Qed.

Lemma open_gallery_postcondition_witness :
  (∃ s', cardClick robots_card false loaded = Done s'
     ∧ currentIndex s' = 0
     ∧ container s'
       = Nodes [Div [] [] [Img (lit "a.png") (lit "robots image") (lit "block")]])
  ∧ (∃ s', cardClick robots_card false (init [] []) = Done s'
       ∧ container s'
         = Html (lit "<div class=" ++ dq ++ lit "image-placeholder" ++ dq
                 ++ lit " style=" ++ dq ++ lit "padding:2rem;" ++ dq
                 ++ lit ">No gallery items found for " ++ dq ++ lit "robots" ++ dq
                 ++ lit "</div>"))
  ∧ (∃ s', cardClick constructor_card false (init [] []) = Raised s'
       ∧ container s' = Nodes [] ∧ modalDisplay s' = []).
Proof.
  split; [|split].
  - destruct (proj1 (open_gallery_postcondition robots_card loaded (lit "robots") eq_refl)
                (photo "a.png") [clip "b.mp4"; photo "c.png"] eq_refl)
      as (s' & H1 & H2 & _ & _ & H3 & _).
    exists s'. split; [exact H1|]. split; [exact H2 | exact H3].
  - destruct (proj1 (proj2 (open_gallery_postcondition robots_card (init [] [])
                              (lit "robots") eq_refl)))
      as (s' & H1 & _ & _ & H2 & _).
    + right. split; [reflexivity|]. intros a. vm_compute. discriminate.
    + exists s'. split; [exact H1 | exact H2].
  - destruct (proj1 (proj2 (proj2 (open_gallery_postcondition constructor_card (init [] [])
                                     (lit "constructor") eq_refl)))
                0%nat eq_refl eq_refl)
      as (s' & H1 & _ & _ & H2 & H3 & _).
    exists s'. split; [exact H1|]. split; [exact H2 | exact H3].
Defined.

(** After a close every open ends at index 0, with or without items. *)
Lemma reopen_index pg s card t :
  currentIndex (state_of (cardClick card t (state_of (closeGallery pg s)))) = 0.
Proof.
  destruct (closeGallery_fields pg s) as (s' & -> & _ & Hi & _). simpl.
  destruct (cardClick_cases card t s')
    as [-> | [(c & _ & _ & _ & ->) | [(c & item & rest & _ & _ & _ & ->)
       | (c & a & _ & _ & _ & ->)]]]; simpl; done.
Qed.

(** The only video below a wrapper is the media element of a video item. *)
Lemma wrapper_video (c : jsstring) (item : Item) :
  first_video [wrapper c item]
  = if decide (type item = lit "video") then Some (src item) else None.
Proof.
  unfold wrapper, media.
  destruct (decide (type item = lit "image")) as [Himg|_];
    destruct (decide (type item = lit "video")) as [Hv|_].
  - rewrite Himg in Hv. vm_compute in Hv. discriminate Hv.
  - destruct (truthy_opt (caption item)); reflexivity.
  - destruct (truthy_opt (caption item)); reflexivity.
  - destruct (decide (type item = lit "application" ∨ type item = lit "pdf"));
      destruct (truthy_opt (caption item)); reflexivity.
Qed.

(** C4. Closing the gallery.  [pause()] is called on the video in the
    container: for the wrapper of a video item the close logs one pause
    of that item's source, for the wrapper of any other item and for an
    empty container it logs none, and whether the call fails makes no
    difference to the result.  The modal is hidden, page scroll
    restored, the container emptied and the session reset to the empty
    gallery, index 0 and the empty category.  The close control, a click
    on the backdrop and Escape while the modal is displayed all run this
    same close, and any open that follows starts at index 0. *)
Theorem close_gallery_resets pg s :
  (∃ s', closeGallery pg s = Done s'
     ∧ currentGallery s' = Items [] ∧ currentIndex s' = 0 ∧ currentCategory s' = []
     ∧ container s' = Nodes []
     ∧ modalDisplay s' = lit "none" ∧ bodyOverflow s' = lit "auto"
     ∧ allGalleries s' = allGalleries s)
  ∧ (∀ c item, container s = Nodes [wrapper c item] → type item = lit "video" →
       log (state_of (closeGallery pg s)) = log s ++ [PauseCalled (src item)])
  ∧ (∀ c item, container s = Nodes [wrapper c item] → type item ≠ lit "video" →
       log (state_of (closeGallery pg s)) = log s)
  ∧ (container s = Nodes [] → log (state_of (closeGallery pg s)) = log s)
  ∧ (∀ markup v, container s = Html markup → videoInMarkup pg markup = Some v →
       log (state_of (closeGallery pg s)) = log s ++ [PauseCalled v])
  ∧ (∀ pg', videoInMarkup pg' = videoInMarkup pg →
       closeGallery pg' s = closeGallery pg s)
  ∧ (galleryClose pg = true → step pg CloseClick s = closeGallery pg s)
  ∧ step pg (ModalClick true) s = closeGallery pg s
  ∧ (modalDisplay s = lit "flex" →
       step pg (KeyDown (lit "Escape")) s = closeGallery pg s)
  ∧ (∀ card t,
       currentIndex (state_of (cardClick card t (state_of (closeGallery pg s)))) = 0).
Proof.
  destruct (closeGallery_fields pg s)
    as (s' & Heq & Hg & Hi & Hc & Hk & Hd & Ho & Hm & Hl).
  split; [exists s'; done|].
  split.
  { intros c item Hcont Hv. rewrite Heq. simpl state_of. rewrite Hl, Hcont.
    change (querySelector_video pg (Nodes [wrapper c item]))
      with (first_video [wrapper c item]).
    rewrite wrapper_video. by rewrite decide_True. }
  split.
  { intros c item Hcont Hv. rewrite Heq. simpl state_of. rewrite Hl, Hcont.
    change (querySelector_video pg (Nodes [wrapper c item]))
      with (first_video [wrapper c item]).
    rewrite wrapper_video. by rewrite decide_False. }
  split.
  { intros Hcont. rewrite Heq. simpl state_of. by rewrite Hl, Hcont. }
  split.
  { intros markup v Hcont Hv. rewrite Heq. simpl state_of. rewrite Hl, Hcont.
    simpl. by rewrite Hv. }
  split.
  { intros pg' Hsame. unfold closeGallery, pause, querySelector_video. rewrite Hsame.
    destruct (container s) as [l|markup].
    - destruct (first_video l) as [v|]; [|done].
      destruct (pauseFails pg' v), (pauseFails pg v); done.
    - destruct (videoInMarkup pg markup) as [v|]; [|done].
      destruct (pauseFails pg' v), (pauseFails pg v); done. }
  split; [intros Hclose; simpl; unfold closeClick; by rewrite Hclose|].
  split; [done|].
  split.
  { intros Hdisp. simpl. unfold keydown. rewrite decide_True by done.
    by rewrite decide_True. }
  intros card t. apply reopen_index.
Qed.

Lemma close_gallery_resets_witness :
  log (state_of (closeGallery stubborn_page (state_of (nextListener opened))))
    = [FetchIssued (lit "gallery.json"); PauseCalled (lit "b.mp4")]
  ∧ closeGallery stubborn_page (state_of (nextListener opened))
    = closeGallery full_page (state_of (nextListener opened))
  ∧ log (state_of (closeGallery full_page opened)) = [FetchIssued (lit "gallery.json")]
  ∧ step full_page CloseClick opened = closeGallery full_page opened
  ∧ step full_page (KeyDown (lit "Escape")) opened = closeGallery full_page opened.
Proof.
  pose proof (close_gallery_resets stubborn_page (state_of (nextListener opened)))
    as (_ & Hvideo & _ & _ & _ & Hsame & _).
  pose proof (close_gallery_resets full_page opened)
    as (_ & _ & Hother & _ & _ & _ & Hc & _ & Hk & _).
  split; [exact (Hvideo (lit "robots") (clip "b.mp4") eq_refl eq_refl)|].
  split; [exact (Hsame full_page eq_refl)|].
  split.
  { apply (Hother (lit "robots") (photo "a.png") eq_refl). vm_compute. discriminate. }
  split; [exact (Hc eq_refl) | exact (Hk eq_refl)].
Defined.

(** User events never touch the manifest and never issue a fetch or an
    alert. *)
Lemma step_manifest pg e s :
  allGalleries (state_of (step pg e s)) = allGalleries s
  ∧ filter is_fetch (log (state_of (step pg e s))) = filter is_fetch (log s)
  ∧ filter is_alert (log (state_of (step pg e s))) = filter is_alert (log s).
Proof.
  assert (∀ s0, allGalleries (state_of (showGalleryItem s0)) = allGalleries s0
             ∧ log (state_of (showGalleryItem s0)) = log s0) as Hshow.
  { intros s0. destruct (show_frame s0) as (H1 & _ & _ & _ & _ & _ & H2). done. }
  assert (∀ s0, allGalleries (state_of (closeGallery pg s0)) = allGalleries s0
     ∧ filter is_fetch (log (state_of (closeGallery pg s0))) = filter is_fetch (log s0)
     ∧ filter is_alert (log (state_of (closeGallery pg s0))) = filter is_alert (log s0))
    as Hclose.
  { intros s0.
    destruct (closeGallery_fields pg s0) as (s' & -> & _ & _ & _ & _ & _ & _ & Hm & Hl).
    simpl. rewrite Hm, Hl. split; [done|].
    destruct (querySelector_video pg (container s0)); [|done].
    rewrite !filter_app. simpl. by rewrite !app_nil_r. }
  assert (∀ s0, allGalleries (state_of (nextListener s0)) = allGalleries s0
     ∧ filter is_fetch (log (state_of (nextListener s0))) = filter is_fetch (log s0)
     ∧ filter is_alert (log (state_of (nextListener s0))) = filter is_alert (log s0))
    as Hnext.
  { intros s0. unfold nextListener. destruct (no_length (currentGallery s0)); [done|].
    destruct (Hshow (set_index (rem (currentIndex s0 + 1)
                                  (len (currentGallery s0))) s0)) as [-> ->]. done. }
  assert (∀ s0, allGalleries (state_of (prevListener s0)) = allGalleries s0
     ∧ filter is_fetch (log (state_of (prevListener s0))) = filter is_fetch (log s0)
     ∧ filter is_alert (log (state_of (prevListener s0))) = filter is_alert (log s0))
    as Hprev.
  { intros s0. unfold prevListener. destruct (no_length (currentGallery s0)); [done|].
    destruct (Hshow (set_index (rem (currentIndex s0 - 1 + len (currentGallery s0))
                                  (len (currentGallery s0))) s0)) as [-> ->]. done. }
  destruct e as [card t| | | |b|k]; simpl.
  - destruct (cardClick_cases card t s)
      as [-> | [(c & _ & _ & _ & ->) | [(c & item & rest & _ & _ & _ & ->)
         | (c & a & _ & _ & _ & ->)]]]; simpl; done.
  - unfold prevClick. destruct (galleryPrev pg); [apply Hprev|done].
  - unfold nextClick. destruct (galleryNext pg); [apply Hnext|done].
  - unfold closeClick. destruct (galleryClose pg); [apply Hclose|done].
  - unfold modalClick. destruct b; [apply Hclose|done].
  - unfold keydown.
    destruct (decide (modalDisplay s = lit "flex")); [|done].
    destruct (decide (k = lit "Escape")); [apply Hclose|].
    destruct (decide (k = lit "ArrowRight")).
    { unfold nextClick. destruct (galleryNext pg); [apply Hnext|done]. }
    destruct (decide (k = lit "ArrowLeft")); [|done].
    unfold prevClick. destruct (galleryPrev pg); [apply Hprev|done].
Qed.

Lemma run_manifest pg es s :
  allGalleries (run pg es s) = allGalleries s
  ∧ filter is_fetch (log (run pg es s)) = filter is_fetch (log s)
  ∧ filter is_alert (log (run pg es s)) = filter is_alert (log s).
Proof.
  revert s. induction es as [|e es IH]; intros s; simpl; [done|].
  destruct (IH (state_of (step pg e s))) as (-> & -> & ->). apply step_manifest.
Qed.

(** C8. A failed manifest load (rejected fetch or a body that is not
    JSON) stores the empty mapping and logs the failure to the console;
    nothing the user sees changes and no alert is raised.  No user event
    issues another fetch or changes the mapping.  After any sequence of
    user events a category then opens with the markup of the message
    for missing items, unless it is the name of an inherited function
    with parameters: on such a name, as "constructor" is, the card
    listener raises with the container emptied and the modal left as it
    was. *)
Theorem manifest_failure_degrades pg r s es :
  r = NetworkError ∨ r = InvalidJson →
  let s1 := manifestSettled r s in
  let s2 := run pg es s1 in
  allGalleries s1 = ∅
  ∧ log s1 = log s ++ [ConsoleError (lit "Failed to load gallery.json")]
  ∧ container s1 = container s ∧ modalDisplay s1 = modalDisplay s
  ∧ bodyOverflow s1 = bodyOverflow s
  ∧ currentGallery s1 = currentGallery s ∧ currentIndex s1 = currentIndex s
  ∧ allGalleries s2 = ∅
  ∧ filter is_fetch (log s2) = filter is_fetch (log s)
  ∧ filter is_alert (log s2) = filter is_alert (log s)
  ∧ (∀ card c, category_of card = Some c →
       (∀ a, inherited c ≠ Some (Builtin (S a))) →
       ∃ s', cardClick card false s2 = Done s'
         ∧ container s'
           = Html (lit "<div class=" ++ dq ++ lit "image-placeholder" ++ dq
                   ++ lit " style=" ++ dq ++ lit "padding:2rem;" ++ dq
                   ++ lit ">No gallery items found for " ++ dq ++ c ++ dq
                   ++ lit "</div>")
         ∧ no_length (currentGallery s') = true
         ∧ modalDisplay s' = lit "flex")
  ∧ (∀ card c a, category_of card = Some c → inherited c = Some (Builtin (S a)) →
       ∃ s', cardClick card false s2 = Raised s'
         ∧ container s' = Nodes []
         ∧ modalDisplay s' = modalDisplay s2)
  ∧ raised (cardClick constructor_card false s2) = true.
Proof.
  intros Hr s1 s2.
  assert (allGalleries s1 = ∅) as Hm by (subst s1; destruct Hr as [-> | ->]; done).
  assert (log s1 = log s ++ [ConsoleError (lit "Failed to load gallery.json")]) as Hl
    by (subst s1; destruct Hr as [-> | ->]; done).
  destruct (run_manifest pg es s1) as (Hm2 & Hf2 & Ha2). fold s2 in Hm2, Hf2, Ha2.
  assert (∀ c : jsstring, allGalleries s2 !! c = None) as Habsent.
  { intros c. by rewrite Hm2, Hm, lookup_empty. }
  split; [done|]. split; [done|].
  split; [subst s1; destruct Hr as [-> | ->]; done|].
  split; [subst s1; destruct Hr as [-> | ->]; done|].
  split; [subst s1; destruct Hr as [-> | ->]; done|].
  split; [subst s1; destruct Hr as [-> | ->]; done|].
  split; [subst s1; destruct Hr as [-> | ->]; done|].
  split; [by rewrite Hm2|].
  split; [rewrite Hf2, Hl, filter_app; simpl; by rewrite app_nil_r|].
  split; [rewrite Ha2, Hl, filter_app; simpl; by rewrite app_nil_r|].
  split.
  { intros card c Hc Hb.
    pose proof (absent_no_length (allGalleries s2) c (Habsent c) Hb) as Hn.
    eexists. split; [by apply cardClick_message|]. simpl. done. }
  split.
  { intros card c a Hc Hi. eexists. split.
    - apply (cardClick_builtin card s2 c a Hc). by apply absent_builtin.
    - simpl. done. }
  apply cardClick_raises. split; [done|].
  exists (lit "constructor"), 0%nat. split; [reflexivity|].
  by apply absent_builtin.
Qed.

Lemma manifest_failure_degrades_witness :
  allGalleries (manifestSettled InvalidJson (init [] [])) = ∅
  ∧ filter is_fetch
      (log (run full_page [CardClick robots_card false; NextClick; CloseClick]
              (manifestSettled InvalidJson (init [] []))))
    = [FetchIssued (lit "gallery.json")]
  ∧ raised (cardClick constructor_card false
              (run full_page [CardClick robots_card false; NextClick; CloseClick]
                 (manifestSettled InvalidJson (init [] [])))) = true.
Proof.
  pose proof (manifest_failure_degrades full_page InvalidJson (init [] [])
                [CardClick robots_card false; NextClick; CloseClick]
                (or_intror eq_refl)) as H.
  cbv zeta in H.
  destruct H as (H1 & _ & _ & _ & _ & _ & _ & _ & H2 & _ & _ & _ & H3).
  split; [exact H1|]. split; [exact H2 | exact H3].
Defined.

(** C9. The keydown listener acts only while the modal's display is
    flex: then ArrowRight clicks the next control, ArrowLeft clicks the
    prev control (which run the navigation listeners when the controls
    exist) and Escape closes; any other key, and every key while the
    display is something else, leaves the state as it is. *)
Theorem keyboard_gated_on_visibility pg key s :
  (modalDisplay s = lit "flex" →
     keydown pg (lit "ArrowRight") s = nextClick pg s
     ∧ keydown pg (lit "ArrowLeft") s = prevClick pg s
     ∧ keydown pg (lit "Escape") s = closeGallery pg s
     ∧ (galleryNext pg = true → keydown pg (lit "ArrowRight") s = nextListener s)
     ∧ (galleryPrev pg = true → keydown pg (lit "ArrowLeft") s = prevListener s)
     ∧ (key ≠ lit "ArrowRight" → key ≠ lit "ArrowLeft" → key ≠ lit "Escape" →
          keydown pg key s = Done s))
  ∧ (modalDisplay s ≠ lit "flex" → keydown pg key s = Done s).
Proof.
  split.
  - intros Hd. unfold keydown. rewrite !(decide_True _ _ Hd).
    split; [done|]. split; [done|]. split; [done|].
    split; [intros Hn; simpl; unfold nextClick; by rewrite Hn|].
    split; [intros Hn; simpl; unfold prevClick; by rewrite Hn|].
    intros H1 H2 H3. by rewrite !decide_False.
  - intros Hd. unfold keydown. by rewrite decide_False.
Qed.

Lemma keyboard_gated_on_visibility_witness :
  keydown full_page (lit "ArrowRight") opened = nextListener opened
  ∧ keydown full_page (lit "Escape") loaded = Done loaded.
Proof.
  split.
  - refine (proj1 (proj2 (proj2 (proj2 (proj1
              (keyboard_gated_on_visibility full_page (lit "Escape") opened) _)))) eq_refl).
    reflexivity.
  - refine (proj2 (keyboard_gated_on_visibility full_page (lit "Escape") loaded) _).
    vm_compute. discriminate.
Defined.

End GalleryFacts.

(** * Properties of the certificate modal *)

Section CertificateFacts.
Import Js Certificate.

Implicit Types (s : State) (pg : Page) (title : jsstring).

Lemma underscore_is_word (c : N) : N.eqb c 95 = true → is_word c = true.
Proof. intros ->%N.eqb_eq. reflexivity. Qed.

Lemma kept_cases (c : N) :
  kept c = is_word c || N.eqb c 45 || N.eqb c 46.
Proof.
  unfold kept. destruct (N.eqb c 95) eqn:H95.
  - rewrite (underscore_is_word c H95). reflexivity.
  - destruct (is_word c), (N.eqb c 45), (N.eqb c 46); reflexivity.
Qed.

(** The two replacements fused into a single pass. *)
Lemma strip_replace_fused (b : bool) (t : jsstring) :
  strip_unkept (replace_ws_runs b t) = sanitize_pass b t.
Proof.
  unfold strip_unkept. revert b. induction t as [|c r IH]; intros b; simpl; [done|].
  destruct (is_ws c) eqn:Hws.
  - destruct b; simpl; by rewrite IH.
  - simpl. rewrite kept_cases, IH.
    destruct (is_word c || N.eqb c 45 || N.eqb c 46); done.
Qed.

Lemma strip_kept (t : jsstring) :
  Forall (fun c => is_word c = true ∨ c = 45%N ∨ c = 46%N) (strip_unkept t).
Proof.
  unfold strip_unkept. induction t as [|c r IH]; simpl; [constructor|].
  destruct (kept c) eqn:Hk; [|exact IH].
  constructor; [|exact IH]. rewrite kept_cases in Hk.
  apply orb_prop in Hk as [[Hw | H45]%orb_prop | H46].
  - by left.
  - right; left. by apply N.eqb_eq.
  - right; right. by apply N.eqb_eq.
Qed.

Lemma replace_ws_runs_Forall (P : N → Prop) (b : bool) (t : jsstring) :
  P 95%N → Forall P t → Forall P (replace_ws_runs b t).
Proof.
  intros H95 Ht. revert b. induction Ht as [|c r Hc Hr IH]; intros b; simpl; [constructor|].
  destruct (is_ws c); [destruct b|]; auto.
Qed.

Lemma filter_kept_word (t : jsstring) :
  Forall (fun c => c ≠ 45%N ∧ c ≠ 46%N) t → List.filter kept t = List.filter is_word t.
Proof.
  induction 1 as [|c r [H45 H46] Hr IH]; simpl; [done|].
  rewrite kept_cases, IH.
  apply N.eqb_neq in H45, H46. rewrite H45, H46, !orb_false_r. done.
Qed.

(** C5, as the code has it. The download name is [".jpg"] appended to
    the sanitized title, where an empty title is first replaced by
    ["certificate"], every maximal run of white space becomes one
    underscore, and of the other code units exactly the word characters,
    the hyphen and the dot are kept.  For a non-empty title without
    hyphen or dot this is the result of collapsing white space and
    removing the non-word characters, and ["AWS Certified!! 2021"] gives
    ["AWS_Certified_2021.jpg"]. *)
Theorem download_name_sanitized title :
  download_name title
    = sanitize_pass false (if truthy title then title else lit "certificate") ++ lit ".jpg"
  ∧ Forall (fun c => is_word c = true ∨ c = 45%N ∨ c = 46%N) (safeTitle title)
  ∧ (title ≠ [] → Forall (fun c => c ≠ 45%N ∧ c ≠ 46%N) title →
       download_name title = spec_download_name title)
  ∧ download_name (lit "AWS Certified!! 2021") = lit "AWS_Certified_2021.jpg".
Proof.
  split; [|split; [|split]].
  - unfold download_name, safeTitle. by rewrite strip_replace_fused.
  - apply strip_kept.
  - intros Hne Hchars. unfold download_name, spec_download_name, safeTitle.
    destruct title as [|c r]; [done|]. simpl truthy. cbv iota.
    unfold strip_unkept. rewrite filter_kept_word; [done|].
    apply replace_ws_runs_Forall; [split; discriminate | exact Hchars].
  - vm_compute. reflexivity.
Qed.

Lemma download_name_sanitized_witness :
  download_name (lit "Cloud Basics 101") = spec_download_name (lit "Cloud Basics 101").
Proof.
  refine (proj1 (proj2 (proj2 (download_name_sanitized (lit "Cloud Basics 101")))) _ _).
  - discriminate.
  - vm_compute. repeat constructor; discriminate.
Defined.

(** C5, as the specification words it (every non-word character
    removed), fails: the code keeps the dot of ["Node.js"], and it names
    the download of an untitled certificate ["certificate.jpg"]. *)
Lemma download_name_keeps_dot :
  download_name (lit "Node.js") = lit "Node.js.jpg"
  ∧ spec_download_name (lit "Node.js") = lit "Nodejs.jpg"
  ∧ download_name (lit "Node.js") ≠ spec_download_name (lit "Node.js").
Proof.
  split; [vm_compute; reflexivity|].
  split; [vm_compute; reflexivity|].
  vm_compute. discriminate.
Qed.

Lemma downloadListener_guard s :
  currentCertificateUrl s = [] → downloadListener s = s.
Proof. intros H. unfold downloadListener. by rewrite H. Qed.

(** Without a thumbnail click no event captures a URL or downloads. *)
Lemma step_keeps_unset pg e s :
  is_open_event e = false →
  currentCertificateUrl s = [] →
  currentCertificateUrl (state_of (step pg e s)) = []
  ∧ downloads (state_of (step pg e s)) = downloads s
  ∧ anchors (state_of (step pg e s)) = anchors s.
Proof.
  intros He Hu. destruct e as [u h| |b|k| | |]; simpl in *; try done.
  - destruct (certClose pg); done.
  - destruct b; done.
  - unfold keydown. repeat case_decide; done.
  - unfold downloadClick. destruct (downloadBtn pg); [|done].
    by rewrite downloadListener_guard.
  - unfold fadeInTimer. destruct (pendingFadeIn s); done.
  - unfold hideTimer. destruct (pendingHide s); done.
Qed.

Lemma run_keeps_unset pg es s :
  forallb (fun e => negb (is_open_event e)) es = true →
  currentCertificateUrl s = [] →
  currentCertificateUrl (run pg es s) = []
  ∧ downloads (run pg es s) = downloads s
  ∧ anchors (run pg es s) = anchors s.
Proof.
  revert s. induction es as [|e es IH]; intros s Hes Hu; simpl in *; [done|].
  apply andb_prop in Hes as [He Hes]. apply negb_true_iff in He.
  destruct (step_keeps_unset pg e s He Hu) as (H1 & H2 & H3).
  destruct (IH _ Hes H1) as (-> & -> & ->). done.
Qed.

(** C10. The download control does nothing while no certificate URL is
    captured: the state is returned as it was, so no anchor is created
    and no download starts.  That is the case as long as no thumbnail
    was clicked, and again once the timer of a close has cleared the
    state. *)
Theorem download_without_url_is_noop pg s :
  (currentCertificateUrl s = [] →
     downloadClick pg s = s ∧ step pg DownloadClick s = Done s)
  ∧ (∀ d o es, forallb (fun e => negb (is_open_event e)) es = true →
       currentCertificateUrl (run pg es (init d o)) = []
       ∧ downloads (run pg (es ++ [DownloadClick]) (init d o)) = []
       ∧ anchors (run pg (es ++ [DownloadClick]) (init d o)) = 0%nat)
  ∧ (pendingHide s ≠ 0%nat →
       currentCertificateUrl (hideTimer s) = []
       ∧ downloadClick pg (hideTimer s) = hideTimer s).
Proof.
  assert (∀ s0, currentCertificateUrl s0 = [] → downloadClick pg s0 = s0) as Hnoop.
  { intros s0 H. unfold downloadClick. destruct (downloadBtn pg); [|done].
    by apply downloadListener_guard. }
  split; [|split].
  - intros Hu. split; [by apply Hnoop|]. simpl. by rewrite Hnoop.
  - intros d o es Hes.
    destruct (run_keeps_unset pg es (init d o) Hes eq_refl) as (Hu & Hd & Ha).
    split; [exact Hu|].
    unfold run in *. rewrite !fold_left_app. simpl.
    rewrite (Hnoop _ Hu), Hd, Ha. done.
  - intros Hp. assert (currentCertificateUrl (hideTimer s) = []) as Hu.
    { unfold hideTimer. destruct (pendingHide s); done. }
    split; [exact Hu | by apply Hnoop].
Qed.

Lemma download_without_url_is_noop_witness :
  downloadClick {| certTitle := true; certClose := true; downloadBtn := true |}
    (init [] []) = init [] []
  ∧ downloads
      (run {| certTitle := true; certClose := true; downloadBtn := true |}
         ([CloseClick; HideTimer; KeyDown (lit "Escape")] ++ [DownloadClick])
         (init [] [])) = [].
Proof.
  pose proof (download_without_url_is_noop
                {| certTitle := true; certClose := true; downloadBtn := true |}
                (init [] [])) as (H1 & H2 & _).
  split.
  - exact (proj1 (H1 eq_refl)).
  - exact (proj1 (proj2 (H2 [] [] [CloseClick; HideTimer; KeyDown (lit "Escape")] eq_refl))).
Defined.

End CertificateFacts.

(** * Properties of the filters *)

Section FilterFacts.
Import Js Filters.

Implicit Types (s : State) (item : Item) (btn : Button).

Lemma apply_filter_tags filter item :
  data_category (apply_filter filter item) = data_category item
  ∧ data_project (apply_filter filter item) = data_project item
  ∧ data_gallery (apply_filter filter item) = data_gallery item.
Proof.
  unfold apply_filter.
  destruct (bool_decide (filter = Some (lit "all")) || bool_decide (Some (cat item) = filter));
    done.
Qed.

Lemma apply_filter_all item : shown (apply_filter (Some (lit "all")) item).
Proof. unfold apply_filter, shown. by rewrite bool_decide_eq_true_2. Qed.

Lemma apply_filter_other filter item :
  filter ≠ Some (lit "all") →
  (shown (apply_filter filter item) ↔ Some (cat item) = filter)
  ∧ (hidden (apply_filter filter item) ↔ Some (cat item) ≠ filter).
Proof.
  intros Hf. unfold apply_filter, shown, hidden.
  rewrite (bool_decide_eq_false_2 _ Hf). simpl.
  destruct (decide (Some (cat item) = filter)) as [Heq|Hne].
  - rewrite (bool_decide_eq_true_2 _ Heq). simpl. split; split; try done.
  - rewrite (bool_decide_eq_false_2 _ Hne). simpl. split; split; try done.
Qed.

(** The tag of an item is the first of category, project and gallery
    that is set to a non-empty value, and the empty string without one. *)
Lemma cat_first_set item :
  (∀ v, data_category item = Some v → truthy v = true → cat item = v)
  ∧ (∀ v, truthy_opt (data_category item) = false → data_project item = Some v →
       truthy v = true → cat item = v)
  ∧ (∀ v, truthy_opt (data_category item) = false →
       truthy_opt (data_project item) = false → data_gallery item = Some v →
       truthy v = true → cat item = v)
  ∧ (truthy_opt (data_category item) = false → truthy_opt (data_project item) = false →
       truthy_opt (data_gallery item) = false → cat item = []).
Proof.
  destruct item as [c p g d fi]. unfold cat, or_opt, or_default. simpl.
  split; [|split; [|split]].
  - intros [|c0 v] -> Hv; [discriminate|]. done.
  - intros [|c0 v] -> -> Hv; [discriminate|]. done.
  - intros [|c0 v] -> -> -> Hv; [discriminate|]. done.
  - intros -> -> Hg. destruct g as [g|]; [|done].
    simpl in Hg. by rewrite Hg.
Qed.

Lemma click_items s k btn :
  filterBtns s !! k = Some btn →
  items (click k s) = map (apply_filter (data_filter btn)) (items s).
Proof.
  intros Hk. unfold click. rewrite Hk.
  destruct (filterBtns s) as [|b0 bs]; [done|].
  destruct (items s) as [|i0 rest] eqn:Hi; [by rewrite Hi | done].
Qed.

Lemma cat_spec_tag item :
  data_category item ≠ Some [] → data_project item ≠ Some [] →
  data_gallery item ≠ Some [] → cat item = spec_tag item.
Proof.
  destruct item as [c p g d fi]. unfold cat, spec_tag, or_opt, or_default. simpl.
  intros Hc Hp Hg.
  destruct c as [[|c0 c]|]; [done|done|].
  destruct p as [[|p0 p]|]; [done|done|].
  destruct g as [[|g0 g]|]; done.
Qed.

(** C7, as the code has it. A click on a filter button rewrites the
    display of every item of the collection and leaves its tags alone:
    with the value "all" every item is shown; with any other value an
    item is shown exactly when its tag equals the value and hidden
    otherwise.  The tag is the value of the first of the attributes
    category, project, gallery that carries a non-empty value, and the
    empty string when none does; when no attribute is present with an
    empty value this is the first attribute that is present. *)
Theorem filter_semantics s k btn :
  filterBtns s !! k = Some btn →
  List.length (items (click k s)) = List.length (items s)
  ∧ ∀ i item, items s !! i = Some item →
      ∃ item', items (click k s) !! i = Some item'
        ∧ cat item' = cat item
        ∧ (data_filter btn = Some (lit "all") → shown item')
        ∧ (data_filter btn ≠ Some (lit "all") →
             (shown item' ↔ Some (cat item) = data_filter btn)
             ∧ (hidden item' ↔ Some (cat item) ≠ data_filter btn))
        ∧ (∀ v, data_category item = Some v → truthy v = true → cat item = v)
        ∧ (∀ v, truthy_opt (data_category item) = false → data_project item = Some v →
             truthy v = true → cat item = v)
        ∧ (∀ v, truthy_opt (data_category item) = false →
             truthy_opt (data_project item) = false → data_gallery item = Some v →
             truthy v = true → cat item = v)
        ∧ (truthy_opt (data_category item) = false →
           truthy_opt (data_project item) = false →
           truthy_opt (data_gallery item) = false → cat item = [])
        ∧ (data_category item ≠ Some [] → data_project item ≠ Some [] →
           data_gallery item ≠ Some [] → cat item = spec_tag item).
Proof.
  intros Hk. rewrite (click_items s k btn Hk). split; [apply length_map|].
  intros i item Hi. exists (apply_filter (data_filter btn) item).
  split; [by rewrite list_lookup_fmap, Hi|].
  destruct (apply_filter_tags (data_filter btn) item) as (Hc & Hp & Hg).
  split; [unfold cat; by rewrite Hc, Hp, Hg|].
  split; [intros ->; apply apply_filter_all|].
  split; [apply apply_filter_other|].
  destruct (cat_first_set item) as (H1 & H2 & H3 & H4).
  split; [exact H1|]. split; [exact H2|]. split; [exact H3|]. split; [exact H4|].
  apply cat_spec_tag.
Qed.

Lemma filter_semantics_witness :
  ∃ item',
    items (click 1
      {| filterBtns := [ {| data_filter := Some (lit "all"); active := true |};
                         {| data_filter := Some (lit "web"); active := false |} ];
         items := [ {| data_category := Some (lit "web"); data_project := None;
                       data_gallery := None; display := []; fade_in := false |};
                    {| data_category := None; data_project := Some (lit "ml");
                       data_gallery := None; display := []; fade_in := false |} ] |})
      !! 1%nat = Some item'
    ∧ hidden item'.
Proof.
  set (s := {| filterBtns := _; items := _ |}).
  destruct (proj2 (filter_semantics s 1
                     {| data_filter := Some (lit "web"); active := false |} eq_refl)
              1%nat
              {| data_category := None; data_project := Some (lit "ml");
                 data_gallery := None; display := []; fade_in := false |} eq_refl)
    as (item' & Hl & _ & _ & Hother & _).
  exists item'. split; [exact Hl|].
  apply (proj2 (Hother ltac:(discriminate))). discriminate.
Defined.

(** C7, as the specification words it (the tag taken from the first
    attribute that is present), fails: a card with an empty category
    attribute and the project "web" has the empty tag by that reading,
    yet the filter "web" shows it. *)
Lemma filter_skips_empty_attribute :
  spec_tag {| data_category := Some []; data_project := Some (lit "web");
              data_gallery := None; display := lit "none"; fade_in := false |} = []
  ∧ items (click 1
      {| filterBtns := [ {| data_filter := Some (lit "all"); active := true |};
                         {| data_filter := Some (lit "web"); active := false |} ];
         items := [ {| data_category := Some []; data_project := Some (lit "web");
                       data_gallery := None; display := lit "none";
                       fade_in := false |} ] |})
    = [ {| data_category := Some []; data_project := Some (lit "web");
           data_gallery := None; display := []; fade_in := true |} ]
  ∧ ¬ (shown {| data_category := Some []; data_project := Some (lit "web");
                data_gallery := None; display := []; fade_in := true |}
       ↔ Some (spec_tag {| data_category := Some []; data_project := Some (lit "web");
                           data_gallery := None; display := lit "none";
                           fade_in := false |})
         = Some (lit "web")).
Proof.
  split; [reflexivity|]. split; [vm_compute; reflexivity|].
  intros [H _]. specialize (H eq_refl). vm_compute in H. discriminate H.
Qed.

End FilterFacts.

(** * Properties of the contact form *)

Section ContactFacts.
Import Js Contact.

Implicit Types (f : Form) (r : Response) (json m : JsValue).






End ContactFacts.

(** * Further properties of the gallery modal *)

Section GalleryViewFacts.
Import Js Gallery GalleryView Samples.

Implicit Types (s : State) (pg : Page) (card : Card) (g : list Item).

(** Moving a consistent session to a valid position renders that item. *)
Lemma goto_consistent s g (j : Z) :
  consistent s → currentGallery s = Items g → g ≠ [] → 0 ≤ j < Js.length g →
  ∃ item, index g j = Some item
    ∧ showGalleryItem (set_index j s)
      = Done (set_container (Nodes [wrapper (currentCategory s) item])
                (set_container (Nodes []) (set_index j s)))
    ∧ consistent (set_container (Nodes [wrapper (currentCategory s) item])
                    (set_container (Nodes []) (set_index j s))).
Proof.
  intros [Hinv Hview] Hg Hne Hj.
  destruct (Hview g Hg Hne) as (_ & _ & _ & _ & Hd & Ho).
  destruct (show_items (set_index j s) g Hg Hj) as (item & Hitem & Hshow).
  exists item. split; [exact Hitem|]. split; [exact Hshow|].
  split.
  - intros _. simpl. rewrite Hg. exact Hj.
  - intros g' Hg' _. simpl in Hg'. rewrite Hg in Hg'. injection Hg' as <-.
    exists item, 0%nat. simpl. done.
Qed.

Lemma next_then_prev (i n : Z) : 0 ≤ i < n → rem (rem (i + 1) n - 1 + n) n = i.
Proof.
  intros H. rewrite (rem_is_mod (i + 1)) by lia.
  destruct (decide (i + 1 = n)) as [Heq|Hlt].
  - rewrite Heq, Z_mod_same_full. rewrite rem_is_mod by lia.
    replace (0 - 1 + n) with i by lia. apply Z.mod_small. lia.
  - rewrite (Z.mod_small (i + 1)) by lia. rewrite rem_is_mod by lia.
    replace (i + 1 - 1 + n) with (i + n) by lia. by apply mod_full_turn.
Qed.

Lemma prev_then_next (i n : Z) : 0 ≤ i < n → rem (rem (i - 1 + n) n + 1) n = i.
Proof.
  intros H. rewrite (rem_is_mod (i - 1 + n)) by lia.
  destruct (decide (i = 0)) as [Heq|Hpos].
  - rewrite (Z.mod_small (i - 1 + n)) by lia. rewrite rem_is_mod by lia.
    replace (i - 1 + n + 1) with n by lia. rewrite Z_mod_same_full. lia.
  - rewrite (mod_full_turn (i - 1) n) by lia.
    rewrite rem_is_mod by lia. replace (i - 1 + 1) with i by lia.
    apply Z.mod_small. lia.
Qed.

Lemma items_bounds s g :
  in_bounds s → currentGallery s = Items g → g ≠ [] →
  0 ≤ currentIndex s < Js.length g.
Proof.
  intros Hinv Hg Hne. unfold in_bounds in Hinv. rewrite Hg in Hinv.
  apply Hinv. by apply items_has_length.
Qed.

Lemma nextListener_items s g :
  currentGallery s = Items g → g ≠ [] →
  nextListener s
  = showGalleryItem (set_index (rem (currentIndex s + 1) (Js.length g)) s).
Proof.
  intros Hg Hne. rewrite nextListener_has_length; rewrite Hg; [done|].
  by apply items_has_length.
Qed.

Lemma prevListener_items s g :
  currentGallery s = Items g → g ≠ [] →
  prevListener s
  = showGalleryItem
      (set_index (rem (currentIndex s - 1 + Js.length g) (Js.length g)) s).
Proof.
  intros Hg Hne. rewrite prevListener_has_length; rewrite Hg; [done|].
  by apply items_has_length.
Qed.

Lemma nextListener_session s :
  currentGallery (state_of (nextListener s)) = currentGallery s
  ∧ currentCategory (state_of (nextListener s)) = currentCategory s.
Proof.
  unfold nextListener. destruct (no_length (currentGallery s)); [done|].
  pose proof (show_frame
    (set_index (rem (currentIndex s + 1) (len (currentGallery s))) s)) as H.
  simpl in H. destruct H as (_ & Hg & _ & Hc & _). done.
Qed.

Lemma prevListener_session s :
  currentGallery (state_of (prevListener s)) = currentGallery s
  ∧ currentCategory (state_of (prevListener s)) = currentCategory s.
Proof.
  unfold prevListener. destruct (no_length (currentGallery s)); [done|].
  pose proof (show_frame
    (set_index (rem (currentIndex s - 1 + len (currentGallery s))
                    (len (currentGallery s))) s)) as H.
  simpl in H. destruct H as (_ & Hg & _ & Hc & _). done.
Qed.

Lemma next_consistent s : consistent s → consistent (state_of (nextListener s)).
Proof.
  intros Hc. split; [apply next_in_bounds, Hc|].
  intros g Hg' Hne.
  assert (currentGallery s = Items g) as Hg
    by (rewrite <- (proj1 (nextListener_session s)); exact Hg').
  clear Hg'. rewrite (nextListener_items s g Hg Hne).
  destruct (goto_consistent s g _ Hc Hg Hne
              (next_target_bounds _ _ (items_bounds s g (proj1 Hc) Hg Hne)))
    as (item & _ & -> & [_ Hview]).
  simpl state_of. by apply Hview.
Qed.

Lemma prev_consistent s : consistent s → consistent (state_of (prevListener s)).
Proof.
  intros Hc. split; [apply prev_in_bounds, Hc|].
  intros g Hg' Hne.
  assert (currentGallery s = Items g) as Hg
    by (rewrite <- (proj1 (prevListener_session s)); exact Hg').
  clear Hg'. rewrite (prevListener_items s g Hg Hne).
  destruct (goto_consistent s g _ Hc Hg Hne
              (prev_target_bounds _ _ (items_bounds s g (proj1 Hc) Hg Hne)))
    as (item & _ & -> & [_ Hview]).
  simpl state_of. by apply Hview.
Qed.

Lemma closed_consistent pg s : consistent (state_of (closeGallery pg s)).
Proof.
  split; [apply closeGallery_safe|].
  destruct (closeGallery_fields pg s) as (s' & -> & Hg & _). simpl.
  intros g Hg' Hne. rewrite Hg in Hg'. injection Hg' as <-. done.
Qed.

Lemma cardClick_consistent card t s :
  consistent s → consistent (state_of (cardClick card t s)).
Proof.
  intros Hc. split; [apply cardClick_in_bounds, Hc|].
  destruct (cardClick_cases card t s)
    as [-> | [(c & _ & _ & Hn & ->) | [(c & item & rest & _ & _ & _ & ->)
       | (c & a & _ & _ & _ & ->)]]]; simpl.
  - apply Hc.
  - intros g Hg Hne. simpl in Hg. rewrite Hg in Hn.
    apply items_no_length in Hn. done.
  - intros g Hg _. simpl in Hg. injection Hg as <-.
    exists item, 0%nat. simpl. done.
  - intros g Hg _. simpl in Hg. discriminate.
Qed.

Lemma imageError_consistent s : consistent s → consistent (imageError s).
Proof.
  intros [Hinv Hview]. split; [by apply imageError_in_bounds|].
  destruct (imageError_frame s) as (_ & Hg & Hi & Hc & Hd & Ho & _).
  intros g Hg' Hne. rewrite Hg in Hg'.
  destruct (Hview g Hg' Hne) as (item & n & Hitem & Hcont & Hdisp & Hovf).
  exists item, (S n). rewrite Hi, Hc, Hd, Ho.
  split; [exact Hitem|]. split; [|done].
  unfold imageError. rewrite Hcont. reflexivity.
Qed.

Lemma step_consistent pg e s : consistent s → consistent (state_of (step pg e s)).
Proof.
  intros Hc. destruct e as [card t| | | |b|k]; simpl.
  - by apply cardClick_consistent.
  - unfold prevClick. destruct (galleryPrev pg); [by apply prev_consistent|done].
  - unfold nextClick. destruct (galleryNext pg); [by apply next_consistent|done].
  - unfold closeClick. destruct (galleryClose pg); [apply closed_consistent|done].
  - unfold modalClick. destruct b; [apply closed_consistent|done].
  - unfold keydown.
    destruct (decide (modalDisplay s = lit "flex")); [|done].
    destruct (decide (k = lit "Escape")); [apply closed_consistent|].
    destruct (decide (k = lit "ArrowRight")).
    { unfold nextClick. destruct (galleryNext pg); [by apply next_consistent|done]. }
    destruct (decide (k = lit "ArrowLeft")); [|done].
    unfold prevClick. destruct (galleryPrev pg); [by apply prev_consistent|done].
Qed.

Lemma exec_consistent pg ts s : consistent s → consistent (exec pg ts s).
Proof.
  revert s. induction ts as [|t ts IH]; intros s Hc; simpl; [done|].
  apply IH. destruct t as [e|r|]; simpl.
  - by apply step_consistent.
  - destruct r as [| |[m|]]; exact Hc.
  - by apply imageError_consistent.
Qed.

Lemma reachable_consistent pg ts d o : consistent (exec pg ts (init d o)).
Proof.
  apply exec_consistent. split.
  - intros Hne. done.
  - intros g Hg Hne. simpl in Hg. injection Hg as <-. done.
Qed.

(** The wrapper of an image after [n] error events: the hidden image
    followed by [n] placeholders, then the caption. *)
Lemma iter_error_image (c : jsstring) (item : Item) (n : nat) :
  type item = lit "image" →
  Nat.iter n handleImageError (wrapper c item)
  = Div [] []
      (Img (src item) (or_default (alt item) (c ++ lit " image"))
           (if decide (n = 0%nat) then lit "block" else lit "none")
       :: replicate n image_placeholder
       ++ (if truthy_opt (caption item) then [Para (default [] (caption item))] else [])).
Proof.
  intros Himg. induction n as [|n IH].
  - simpl. unfold wrapper. by rewrite (proj1 (media_by_type c item) Himg).
  - simpl Nat.iter. rewrite IH. reflexivity.
Qed.

(** On the wrapper of anything but an image the error handler finds no
    image to replace. *)
Lemma iter_error_other (c : jsstring) (item : Item) (n : nat) :
  type item ≠ lit "image" →
  Nat.iter n handleImageError (wrapper c item) = wrapper c item.
Proof.
  intros Himg. induction n as [|n IH]; [done|].
  simpl Nat.iter. rewrite IH. unfold wrapper, media.
  rewrite decide_False by done.
  destruct (decide (type item = lit "video")); [reflexivity|].
  destruct (decide (type item = lit "application" ∨ type item = lit "pdf")); reflexivity.
Qed.



Lemma restore_view s (j : Z) (c view : Content) :
  set_container view
    (set_container (Nodes [])
       (set_index (currentIndex s) (set_container c (set_container (Nodes []) (set_index j s)))))
  = set_container view s.
Proof. destruct s. reflexivity. Qed.

Lemma set_own_container s : set_container (container s) s = s.
Proof. destruct s. reflexivity. Qed.

(** X2. Prev and next undo each other up to a fresh rendering: in a
    reachable state with an array of items loaded, next followed by
    prev, and prev followed by next, lead to the starting state with the
    wrapper of the current item built anew in the container; that is the
    starting state itself whenever the container held that wrapper as
    built (no image error was handled on it). *)
Theorem prev_next_inverse pg ts d o :
  let s := exec pg ts (init d o) in
  ∀ g, currentGallery s = Items g → g ≠ [] →
  ∃ item, index g (currentIndex s) = Some item
    ∧ state_of (prevListener (state_of (nextListener s)))
      = set_container (Nodes [wrapper (currentCategory s) item]) s
    ∧ state_of (nextListener (state_of (prevListener s)))
      = set_container (Nodes [wrapper (currentCategory s) item]) s
    ∧ (container s = Nodes [wrapper (currentCategory s) item] →
         state_of (prevListener (state_of (nextListener s))) = s
         ∧ state_of (nextListener (state_of (prevListener s))) = s).
Proof.
  intros s g Hg Hne. pose proof (reachable_consistent pg ts d o) as Hc. fold s in Hc.
  pose proof (items_bounds s g (proj1 Hc) Hg Hne) as Hb.
  destruct (index_in_range g (currentIndex s) Hb) as [item Hitem].
  exists item. split; [exact Hitem|].
  assert (state_of (prevListener (state_of (nextListener s)))
          = set_container (Nodes [wrapper (currentCategory s) item]) s) as H1.
  { rewrite (nextListener_items s g Hg Hne).
    destruct (goto_consistent s g _ Hc Hg Hne (next_target_bounds _ _ Hb))
      as (item1 & _ & -> & Hc1).
    simpl state_of.
    set (s1 := set_container (Nodes [wrapper (currentCategory s) item1]) _) in *.
    assert (currentGallery s1 = Items g) as Hg1 by exact Hg.
    rewrite (prevListener_items s1 g Hg1 Hne).
    change (currentIndex s1) with (rem (currentIndex s + 1) (Js.length g)).
    rewrite (next_then_prev _ _ Hb).
    destruct (goto_consistent s1 g (currentIndex s) Hc1 Hg1 Hne Hb)
      as (item2 & Hi2 & -> & _).
    assert (item2 = item) as -> by congruence.
    simpl state_of. subst s1. apply restore_view. }
  assert (state_of (nextListener (state_of (prevListener s)))
          = set_container (Nodes [wrapper (currentCategory s) item]) s) as H2.
  { rewrite (prevListener_items s g Hg Hne).
    destruct (goto_consistent s g _ Hc Hg Hne (prev_target_bounds _ _ Hb))
      as (item1 & _ & -> & Hc1).
    simpl state_of.
    set (s1 := set_container (Nodes [wrapper (currentCategory s) item1]) _) in *.
    assert (currentGallery s1 = Items g) as Hg1 by exact Hg.
    rewrite (nextListener_items s1 g Hg1 Hne).
    change (currentIndex s1) with (rem (currentIndex s - 1 + Js.length g) (Js.length g)).
    rewrite (prev_then_next _ _ Hb).
    destruct (goto_consistent s1 g (currentIndex s) Hc1 Hg1 Hne Hb)
      as (item2 & Hi2 & -> & _).
    assert (item2 = item) as -> by congruence.
    simpl state_of. subst s1. apply restore_view. }
  split; [exact H1|]. split; [exact H2|].
  intros Hcont. rewrite H1, H2, <- Hcont. split; apply set_own_container.
Qed.

Lemma prev_next_inverse_witness :
  state_of (prevListener (state_of (nextListener opened))) = opened
  ∧ state_of (prevListener (state_of (nextListener (imageError opened))))
    = set_container (Nodes [wrapper (lit "robots") (photo "a.png")]) (imageError opened).
Proof.
  split.
  - destruct (prev_next_inverse full_page
                [Settled (Parsed (Some demo_manifest));
                 User (CardClick robots_card false)] [] []
                [photo "a.png"; clip "b.mp4"; photo "c.png"] eq_refl)
      as (item & Hi & _ & _ & Hsame).
    + discriminate.
    + vm_compute in Hi. injection Hi as <-. exact (proj1 (Hsame eq_refl)).
  - destruct (prev_next_inverse full_page
                [Settled (Parsed (Some demo_manifest));
                 User (CardClick robots_card false); ImageFailed] [] []
                [photo "a.png"; clip "b.mp4"; photo "c.png"] eq_refl)
      as (item & Hi & H1 & _).
    + discriminate.
    + vm_compute in Hi. injection Hi as <-. exact H1.
Defined.

End GalleryViewFacts.

Section GalleryLifecycleFacts.
Import Js Gallery GalleryView Samples.

Implicit Types (s : State) (pg : Page) (card : Card) (g : list Item).

Lemma skip_placeholders (cls txt : jsstring) (n : nat) (rest : list Node) :
  find_video (Div cls txt (replicate n image_placeholder ++ rest))
  = find_video (Div cls txt rest).
Proof. induction n as [|n IH]; [reflexivity|]. exact IH. Qed.

(** Image-error handling leaves the video of a wrapper where it is and
    adds none. *)
Lemma failed_wrapper_video (c : jsstring) (item : Item) (n : nat) :
  first_video [Nat.iter n handleImageError (wrapper c item)]
  = if decide (type item = lit "video") then Some (src item) else None.
Proof.
  destruct (decide (type item = lit "image")) as [Himg|Himg].
  - rewrite (iter_error_image c item n Himg).
    destruct (decide (type item = lit "video")) as [Hv|_].
    { rewrite Himg in Hv. vm_compute in Hv. discriminate Hv. }
    change (match find_video
                    (Div [] []
                       (replicate n image_placeholder
                        ++ (if truthy_opt (caption item)
                            then [Para (default [] (caption item))] else [])))
            with Some v => Some v | None => None end = None).
    rewrite skip_placeholders.
    destruct (truthy_opt (caption item)); reflexivity.
  - rewrite (iter_error_other c item n Himg). apply wrapper_video.
Qed.

(** X3. Closing calls [pause()] exactly when the item on screen is a
    video: in a reachable state with an array of items loaded the close
    logs one pause of the current item's source if its type is "video",
    and logs nothing for any other type. *)
Theorem close_pauses_current_video pg pg' ts d o :
  let s := exec pg ts (init d o) in
  ∀ g, currentGallery s = Items g → g ≠ [] →
  ∃ item, index g (currentIndex s) = Some item
    ∧ log (state_of (closeGallery pg' s))
      = if decide (type item = lit "video")
        then log s ++ [PauseCalled (src item)] else log s.
Proof.
  intros s g Hg Hne. destruct (reachable_consistent pg ts d o) as [_ Hview].
  destruct (Hview g Hg Hne) as (item & n & Hi & Hc & _). fold s in Hi, Hc.
  exists item. split; [exact Hi|].
  destruct (closeGallery_fields pg' s) as (s' & Heq & _ & _ & _ & _ & _ & _ & _ & Hl).
  rewrite Heq. simpl state_of. rewrite Hl, Hc.
  change (querySelector_video pg'
            (Nodes [Nat.iter n handleImageError (wrapper (currentCategory s) item)]))
    with (first_video [Nat.iter n handleImageError (wrapper (currentCategory s) item)]).
  rewrite failed_wrapper_video.
  destruct (decide (type item = lit "video")); done.
Qed.

Lemma close_pauses_current_video_witness :
  log (state_of (closeGallery full_page (state_of (nextListener opened))))
  = [FetchIssued (lit "gallery.json"); PauseCalled (lit "b.mp4")].
Proof.
  destruct (close_pauses_current_video full_page full_page
              [Settled (Parsed (Some demo_manifest));
               User (CardClick robots_card false); User NextClick] [] []
              [photo "a.png"; clip "b.mp4"; photo "c.png"] eq_refl)
    as (item & Hi & Hl).
  - discriminate.
  - vm_compute in Hi. injection Hi as <-. exact Hl.
Defined.

(** X4. A closed gallery stays closed: closing twice is closing once,
    and in the closed state prev, next, every key and a click inside the
    modal change nothing. *)
Theorem closed_state_ignores_navigation pg s (key : jsstring) :
  let c := state_of (closeGallery pg s) in
  closeGallery pg c = Done c
  ∧ prevListener c = Done c ∧ nextListener c = Done c
  ∧ step pg PrevClick c = Done c ∧ step pg NextClick c = Done c
  ∧ step pg (KeyDown key) c = Done c
  ∧ step pg (ModalClick false) c = Done c.
Proof.
  intros c.
  destruct (closeGallery_fields pg s) as (s' & Heq & Hg & Hi & Hcat & Hcont & Hd & Ho & _).
  subst c. rewrite Heq. simpl state_of.
  destruct s' as [m g i cat cont disp ovf lg]. simpl in Hg, Hi, Hcat, Hcont, Hd, Ho.
  subst g i cat cont disp ovf.
  split; [reflexivity|].
  split; [reflexivity|]. split; [reflexivity|].
  split; [simpl; unfold prevClick; destruct (galleryPrev pg); reflexivity|].
  split; [simpl; unfold nextClick; destruct (galleryNext pg); reflexivity|].
  split; [|reflexivity].
  simpl. unfold keydown. rewrite decide_False; [reflexivity|].
  simpl. vm_compute. discriminate.
Qed.

Lemma cardClick_keeps_manifest card t s :
  allGalleries (state_of (cardClick card t s)) = allGalleries s
  ∧ log (state_of (cardClick card t s)) = log s.
Proof.
  destruct (cardClick_cases card t s)
    as [-> | [(c & _ & _ & _ & ->) | [(c & item & rest & _ & _ & _ & ->)
       | (c & a & _ & _ & _ & ->)]]]; done.
Qed.

(** X5. Opening replaces the session.  A click on a card whose category
    has items leads to the same state whether or not another card was
    clicked first.  For a category that resolves to something without
    length the two states differ at most in the index, which such a
    click leaves as it was.  For a category that resolves to an
    inherited function with parameters the click raises and the index is
    0 either way. *)
Theorem open_replaces_session card1 t card2 s c :
  category_of card2 = Some c →
  let s1 := state_of (cardClick card1 t s) in
  (∀ item rest, allGalleries s !! c = Some (item :: rest) →
     cardClick card2 false s1 = cardClick card2 false s)
  ∧ (no_length (resolve (allGalleries s) c) = true →
     set_index 0 (state_of (cardClick card2 false s1))
     = set_index 0 (state_of (cardClick card2 false s))
     ∧ currentIndex (state_of (cardClick card2 false s1)) = currentIndex s1
     ∧ currentIndex (state_of (cardClick card2 false s)) = currentIndex s)
  ∧ (∀ a, resolve (allGalleries s) c = Builtin (S a) →
     raised (cardClick card2 false s1) = true
     ∧ currentIndex (state_of (cardClick card2 false s1)) = 0
     ∧ currentGallery (state_of (cardClick card2 false s1)) = Builtin (S a)).
Proof.
  intros Hc s1.
  destruct (cardClick_keeps_manifest card1 t s) as [Hm Hl]. fold s1 in Hm, Hl.
  split; [|split].
  - intros item rest Hg.
    rewrite (cardClick_items card2 s c item rest Hc Hg).
    rewrite (cardClick_items card2 s1 c item rest Hc) by (by rewrite Hm).
    unfold set_styles, set_container, set_index, set_session. simpl.
    by rewrite Hm, Hl.
  - intros Hg.
    rewrite (cardClick_message card2 s c Hc Hg).
    rewrite (cardClick_message card2 s1 c Hc) by (by rewrite Hm).
    unfold set_styles, set_container, set_index, set_session. simpl.
    by rewrite Hm, Hl.
  - intros a Hg.
    rewrite (cardClick_builtin card2 s1 c a Hc) by (by rewrite Hm). done.
Qed.

Lemma open_replaces_session_witness :
  cardClick robots_card false opened = cardClick robots_card false loaded
  ∧ raised (cardClick constructor_card false opened) = true.
Proof.
  split.
  - exact (proj1 (open_replaces_session robots_card false robots_card loaded
                    (lit "robots") eq_refl)
             (photo "a.png") [clip "b.mp4"; photo "c.png"] eq_refl).
  - exact (proj1 (proj2 (proj2 (open_replaces_session robots_card false constructor_card
                                  loaded (lit "constructor") eq_refl))
                    0%nat eq_refl)).
Defined.

(** X6. A manifest that arrives after a card was clicked does not
    refresh the open modal.  For a category that is not the name of an
    inherited function with parameters, the click before the load puts
    the markup of the message for missing items into the container; when
    the manifest then arrives with items for that category the container
    still holds that markup, the gallery is still without length and
    prev and next do nothing, until the card is clicked again, which
    shows the first item at index 0. *)
Theorem late_manifest_needs_reopen card c m item rest d o :
  category_of card = Some c →
  (∀ a, inherited c ≠ Some (Builtin (S a))) →
  m !! c = Some (item :: rest) →
  let s1 := state_of (cardClick card false (init d o)) in
  let s2 := manifestSettled (Parsed (Some m)) s1 in
  container s2
    = Html (lit "<div class=" ++ dq ++ lit "image-placeholder" ++ dq
            ++ lit " style=" ++ dq ++ lit "padding:2rem;" ++ dq
            ++ lit ">No gallery items found for " ++ dq ++ c ++ dq ++ lit "</div>")
  ∧ no_length (currentGallery s2) = true
  ∧ nextListener s2 = Done s2 ∧ prevListener s2 = Done s2
  ∧ container (state_of (cardClick card false s2)) = Nodes [wrapper c item]
  ∧ currentGallery (state_of (cardClick card false s2)) = Items (item :: rest)
  ∧ currentIndex (state_of (cardClick card false s2)) = 0.
Proof.
  intros Hc Hb Hm s1 s2.
  assert (no_length (resolve (allGalleries (init d o)) c) = true) as Hn.
  { apply absent_no_length; [apply lookup_empty | exact Hb]. }
  assert (s1 = set_styles (lit "flex") (lit "hidden")
                 (set_container (Html (no_items_message c))
                    (set_session c (resolve (allGalleries (init d o)) c) (init d o))))
    as Hs1.
  { subst s1. by rewrite (cardClick_message card (init d o) c Hc Hn). }
  assert (no_length (currentGallery s2) = true) as Hn2.
  { subst s2. rewrite Hs1. exact Hn. }
  split; [subst s2; rewrite Hs1; reflexivity|].
  split; [exact Hn2|].
  split; [unfold nextListener; by rewrite Hn2|].
  split; [unfold prevListener; by rewrite Hn2|].
  rewrite (cardClick_items card s2 c item rest Hc).
  - done.
  - subst s2. exact Hm.
Qed.

Lemma late_manifest_needs_reopen_witness :
  container (manifestSettled (Parsed (Some demo_manifest))
               (state_of (cardClick robots_card false (init [] []))))
  = Html (lit "<div class=" ++ dq ++ lit "image-placeholder" ++ dq
          ++ lit " style=" ++ dq ++ lit "padding:2rem;" ++ dq
          ++ lit ">No gallery items found for " ++ dq ++ lit "robots" ++ dq
          ++ lit "</div>").
Proof.
  refine (proj1 (late_manifest_needs_reopen robots_card (lit "robots") demo_manifest
                   (photo "a.png") [clip "b.mp4"; photo "c.png"] [] []
                   eq_refl _ eq_refl)).
  intros a. vm_compute. discriminate.
Defined.

Lemma next_times_consistent (k : nat) s g :
  consistent s → currentGallery s = Items g →
  consistent (next_times k s)
  ∧ currentGallery (next_times k s) = Items g
  ∧ currentCategory (next_times k s) = currentCategory s.
Proof.
  intros Hc Hg. induction k as [|k (IHc & IHg & IHcat)]; simpl; [done|].
  fold (next_times k s).
  split; [by apply next_consistent|].
  destruct (nextListener_session (next_times k s)) as [-> ->]. done.
Qed.

(** X7. Stepping through a gallery: from a reachable state with an array
    of n items loaded at index i, k clicks on next leave the index at
    (i + k) mod n, and after at least one click the container holds the
    wrapper built for the item at that position. *)
Theorem next_walks_the_gallery pg ts d o (k : nat) :
  let s := exec pg ts (init d o) in
  ∀ g, currentGallery s = Items g → g ≠ [] →
  let j := (currentIndex s + Z.of_nat k) mod Js.length g in
  ∃ item, index g j = Some item
    ∧ currentIndex (next_times k s) = j
    ∧ (k ≠ 0%nat →
         container (next_times k s) = Nodes [wrapper (currentCategory s) item]).
Proof.
  intros s g Hg Hne j. pose proof (reachable_consistent pg ts d o) as Hc. fold s in Hc.
  pose proof (items_bounds s g (proj1 Hc) Hg Hne) as Hb.
  assert (currentIndex (next_times k s) = j) as Hj.
  { destruct (next_iter s k) as [_ Hi].
    - rewrite Hg. by apply items_has_length.
    - rewrite Hg. exact Hb.
    - unfold next_times. rewrite Hi, Hg. reflexivity. }
  assert (0 ≤ j < Js.length g) as Hjb.
  { subst j. apply Z.mod_pos_bound. lia. }
  destruct (index_in_range g j Hjb) as [item Hitem].
  exists item. split; [exact Hitem|]. split; [exact Hj|].
  intros Hk. destruct k as [|k]; [done|].
  destruct (next_times_consistent k s g Hc Hg) as (Hck & Hgk & Hcatk).
  change (next_times (S k) s) with (state_of (nextListener (next_times k s))) in *.
  rewrite (nextListener_items _ g Hgk Hne) in *.
  destruct (goto_consistent (next_times k s) g _ Hck Hgk Hne
              (next_target_bounds _ _ (items_bounds _ g (proj1 Hck) Hgk Hne)))
    as (item' & Hi' & Heq & _).
  rewrite Heq in *. simpl state_of in *. simpl in Hj. rewrite Hj in Hi'.
  assert (item' = item) as -> by congruence.
  simpl. by rewrite Hcatk.
Qed.

Lemma next_walks_the_gallery_witness :
  container (next_times 5 opened) = Nodes [wrapper (lit "robots") (photo "c.png")].
Proof.
  destruct (next_walks_the_gallery full_page
              [Settled (Parsed (Some demo_manifest));
               User (CardClick robots_card false)] [] [] 5
              [photo "a.png"; clip "b.mp4"; photo "c.png"] eq_refl)
    as (item & Hi & _ & Hc).
  - discriminate.
  - vm_compute in Hi. injection Hi as <-. apply Hc. discriminate.
Defined.

End GalleryLifecycleFacts.

(** * Further properties of the certificate modal *)

Section CertificateLifecycleFacts.
Import Js Certificate.

Implicit Types (s : State) (pg : Page) (title : jsstring).

Lemma ws_not_kept (c : N) : is_ws c = true → kept c = false.
Proof.
  unfold is_ws. intros [Hin | [Hlo Hhi]%andb_prop]%orb_prop.
  - apply bool_decide_eq_true in Hin.
    repeat (apply elem_of_cons in Hin as [-> | Hin]; [reflexivity|]).
    by apply elem_of_nil in Hin.
  - apply N.leb_le in Hlo, Hhi. unfold kept, is_word.
    repeat match goal with
           | |- context [N.leb ?a ?b] => destruct (N.leb_spec a b); try lia
           | |- context [N.eqb ?a ?b] => destruct (N.eqb_spec a b); try lia
           end; reflexivity.
Qed.

Lemma kept_not_ws (c : N) : kept c = true → is_ws c = false.
Proof.
  intros Hk. destruct (is_ws c) eqn:Hws; [|done].
  rewrite (ws_not_kept c Hws) in Hk. discriminate.
Qed.

Lemma replace_ws_runs_no_ws (b : bool) (t : jsstring) :
  Forall (fun c => is_ws c = false) t → replace_ws_runs b t = t.
Proof.
  intros Ht. revert b. induction Ht as [|c r Hc Hr IH]; intros b; simpl; [done|].
  by rewrite Hc, IH.
Qed.

Lemma strip_unkept_all_kept (t : jsstring) :
  Forall (fun c => kept c = true) t → strip_unkept t = t.
Proof.
  unfold strip_unkept. induction 1 as [|c r Hc Hr IH]; simpl; [done|].
  by rewrite Hc, IH.
Qed.

Lemma strip_unkept_Forall (t : jsstring) : Forall (fun c => kept c = true) (strip_unkept t).
Proof.
  unfold strip_unkept. induction t as [|c r IH]; simpl; [constructor|].
  destruct (kept c) eqn:Hk; [constructor|]; done.
Qed.

Lemma strip_unkept_length (t : jsstring) :
  (List.length (strip_unkept t) ≤ List.length t)%nat.
Proof.
  unfold strip_unkept. induction t as [|c r IH]; simpl; [done|].
  destruct (kept c); simpl; lia.
Qed.

Lemma replace_ws_runs_length (b : bool) (t : jsstring) :
  (List.length (replace_ws_runs b t) ≤ List.length t)%nat.
Proof.
  revert b. induction t as [|c r IH]; intros b; simpl; [done|].
  destruct (is_ws c); [destruct b|]; simpl;
    [specialize (IH true) | specialize (IH true) | specialize (IH false)]; lia.
Qed.

Lemma safe_unchanged title :
  title ≠ [] → Forall (fun c => kept c = true) title → safeTitle title = title.
Proof.
  intros Hne Hk. unfold safeTitle. destruct title as [|c r]; [done|].
  simpl truthy. cbv iota.
  rewrite replace_ws_runs_no_ws.
  - by apply strip_unkept_all_kept.
  - eapply Forall_impl; [exact Hk|]. intros x. apply kept_not_ws.
Qed.

(** X8. Sanitizing a title is stable: a non-empty title made only of
    word characters, hyphens, underscores and dots is its own safe title;
    sanitizing a non-empty safe title again changes nothing; a safe
    title holds no white space and is never longer than the title it
    comes from (or than "certificate" for the empty title). *)
Theorem safe_title_stable title :
  (title ≠ [] → Forall (fun c => kept c = true) title → safeTitle title = title)
  ∧ (safeTitle title ≠ [] → safeTitle (safeTitle title) = safeTitle title)
  ∧ Forall (fun c => is_ws c = false) (safeTitle title)
  ∧ (List.length (safeTitle title)
     ≤ List.length (if truthy title then title else lit "certificate"))%nat.
Proof.
  split; [apply safe_unchanged|].
  split.
  { intros Hne. apply safe_unchanged; [exact Hne|]. apply strip_unkept_Forall. }
  split.
  { eapply Forall_impl; [apply (strip_unkept_Forall _)|]. intros x. apply kept_not_ws. }
  unfold safeTitle.
  etrans; [apply strip_unkept_length | apply replace_ws_runs_length].
Qed.

Lemma safe_title_stable_witness :
  safeTitle (lit "Node.js_v2-final") = lit "Node.js_v2-final"
  ∧ safeTitle (safeTitle (lit "AWS Certified!! 2021")) = safeTitle (lit "AWS Certified!! 2021").
Proof.
  split.
  - refine (proj1 (safe_title_stable (lit "Node.js_v2-final")) _ _).
    + discriminate.
    + vm_compute. repeat constructor.
  - refine (proj1 (proj2 (safe_title_stable (lit "AWS Certified!! 2021"))) _).
    vm_compute. discriminate.
Defined.

(** The title shown for a thumbnail: the trimmed heading of its card, or
    "Certificate" without one. *)
Lemma thumbnailClick_done pg url heading s :
  certTitle pg = true →
  ∃ s1, thumbnailClick pg url heading s = Done s1
    ∧ currentCertificateUrl s1 = url
    ∧ currentCertificateTitle s1
      = match heading with Some t => trim t | None => lit "Certificate" end
    ∧ imgSrc s1 = url ∧ titleText s1 = currentCertificateTitle s1
    ∧ modalDisplay s1 = lit "block" ∧ bodyOverflow s1 = lit "hidden"
    ∧ modalOpacity s1 = modalOpacity s
    ∧ pendingFadeIn s1 = S (pendingFadeIn s) ∧ pendingHide s1 = pendingHide s
    ∧ downloads s1 = downloads s ∧ anchors s1 = anchors s.
Proof.
  intros Ht. unfold thumbnailClick. rewrite Ht. eexists. split; [reflexivity|].
  simpl. done.
Qed.

Lemma download_with_url pg s :
  downloadBtn pg = true → currentCertificateUrl s ≠ [] →
  downloads (downloadClick pg s)
  = downloads s ++ [{| href := currentCertificateUrl s;
                       filename := download_name (currentCertificateTitle s) |}]
  ∧ anchors (downloadClick pg s) = S (anchors s).
Proof.
  intros Hb Hu. unfold downloadClick, downloadListener. rewrite Hb.
  destruct (currentCertificateUrl s) as [|c r]; [done|]. simpl. done.
Qed.

(** X9. A download after opening a certificate takes the thumbnail's URL
    and the name made from the card's trimmed heading (or from
    "Certificate"); it is still served after a close was requested, as
    long as the hide timer has not run, and no longer once it has. *)
Theorem download_follows_open pg url heading s :
  certTitle pg = true → downloadBtn pg = true → url ≠ [] →
  let title := match heading with Some t => trim t | None => lit "Certificate" end in
  let served := {| href := url; filename := download_name title |} in
  let s1 := state_of (thumbnailClick pg url heading s) in
  downloads (downloadClick pg s1) = downloads s ++ [served]
  ∧ downloads (downloadClick pg (closeCertificateModal s1)) = downloads s ++ [served]
  ∧ downloads (downloadClick pg (hideTimer (closeCertificateModal s1))) = downloads s
  ∧ anchors (downloadClick pg (hideTimer (closeCertificateModal s1))) = anchors s.
Proof.
  intros Ht Hb Hu title served s1.
  destruct (thumbnailClick_done pg url heading s Ht)
    as (s' & Heq & Hurl & Htitle & _ & _ & _ & _ & _ & _ & _ & Hd & Ha).
  subst s1. rewrite Heq. simpl state_of.
  split.
  { destruct (download_with_url pg s' Hb) as [-> _]; [by rewrite Hurl|].
    by rewrite Hurl, Htitle, Hd. }
  split.
  { destruct (download_with_url pg (closeCertificateModal s') Hb) as [-> _];
      [simpl; by rewrite Hurl|].
    simpl. by rewrite Hurl, Htitle, Hd. }
  unfold downloadClick, downloadListener, hideTimer. rewrite Hb. simpl.
  split; [exact Hd | exact Ha].
Qed.

Lemma download_follows_open_witness :
  downloads
    (downloadClick {| certTitle := true; certClose := true; downloadBtn := true |}
       (state_of (thumbnailClick {| certTitle := true; certClose := true; downloadBtn := true |}
                    (lit "img/aws.jpg") (Some (lit "  AWS Certified!! 2021 ")) (init [] []))))
  = [{| href := lit "img/aws.jpg"; filename := lit "AWS_Certified_2021.jpg" |}].
Proof.
  refine (proj1 (download_follows_open
                   {| certTitle := true; certClose := true; downloadBtn := true |}
                   (lit "img/aws.jpg") (Some (lit "  AWS Certified!! 2021 ")) (init [] [])
                   eq_refl eq_refl _)).
  discriminate.
Defined.

(** X10. On a page without the title element the thumbnail listener
    raises after it has captured the URL and set the image source: the
    modal is not displayed and no fade-in is scheduled, yet the download
    control serves the captured URL. *)
Theorem open_without_title_element pg url heading s :
  certTitle pg = false →
  ∃ s1, thumbnailClick pg url heading s = Raised s1
    ∧ currentCertificateUrl s1 = url ∧ imgSrc s1 = url
    ∧ modalDisplay s1 = modalDisplay s ∧ bodyOverflow s1 = bodyOverflow s
    ∧ pendingFadeIn s1 = pendingFadeIn s ∧ titleText s1 = titleText s
    ∧ (downloadBtn pg = true → url ≠ [] →
         downloads (downloadClick pg s1)
         = downloads s ++
           [{| href := url;
               filename := download_name
                 (match heading with Some t => trim t | None => lit "Certificate" end) |}]).
Proof.
  intros Ht. unfold thumbnailClick. rewrite Ht. eexists. split; [reflexivity|].
  simpl. repeat split.
  intros Hb Hu. unfold downloadClick, downloadListener. rewrite Hb. simpl.
  destruct url as [|c r]; [done|]. reflexivity.
Qed.

Lemma open_without_title_element_witness :
  ∃ s1, thumbnailClick {| certTitle := false; certClose := true; downloadBtn := true |}
          (lit "img/aws.jpg") None (init [] []) = Raised s1
    ∧ modalDisplay s1 = [].
Proof.
  destruct (open_without_title_element
              {| certTitle := false; certClose := true; downloadBtn := true |}
              (lit "img/aws.jpg") None (init [] []) eq_refl)
    as (s1 & H1 & _ & _ & H2 & _).
  exists s1. split; [exact H1 | exact H2].
Defined.

(** X11. The hide timer of a close is not cancelled by a reopen: when a
    thumbnail is clicked after a close was requested and the timer of
    that close then runs, the freshly opened modal is hidden, its URL,
    title and image source are cleared and the download control is inert
    again. *)
Theorem reopen_before_hide_timer pg url heading s :
  certTitle pg = true →
  let s1 := state_of (thumbnailClick pg url heading (closeCertificateModal s)) in
  let s2 := hideTimer s1 in
  modalDisplay s1 = lit "block" ∧ currentCertificateUrl s1 = url
  ∧ modalDisplay s2 = lit "none" ∧ bodyOverflow s2 = lit "auto"
  ∧ currentCertificateUrl s2 = [] ∧ currentCertificateTitle s2 = [] ∧ imgSrc s2 = []
  ∧ pendingHide s2 = pendingHide s
  ∧ downloadClick pg s2 = s2.
Proof.
  intros Ht s1 s2. subst s2 s1. unfold thumbnailClick. rewrite Ht. simpl.
  repeat split. unfold downloadClick, downloadListener.
  destruct (downloadBtn pg); reflexivity.
Qed.

Lemma reopen_before_hide_timer_witness :
  modalDisplay
    (hideTimer
       (state_of (thumbnailClick {| certTitle := true; certClose := true; downloadBtn := true |}
                    (lit "img/aws.jpg") None (closeCertificateModal (init [] [])))))
  = lit "none".
Proof.
  exact (proj1 (proj2 (proj2 (reopen_before_hide_timer
                   {| certTitle := true; certClose := true; downloadBtn := true |}
                   (lit "img/aws.jpg") None (init [] []) eq_refl)))).
Defined.

End CertificateLifecycleFacts.

(** * Further properties of the filters *)

Section FilterClickFacts.
Import Js Filters.

Implicit Types (s : State) (item : Item) (btn : Button).

Lemma click_without_listeners s k :
  filterBtns s = [] ∨ items s = [] → click k s = s.
Proof.
  unfold click. intros [H|H]; rewrite H; [done|].
  destruct (filterBtns s); done.
Qed.

Lemma click_valid s k btn :
  filterBtns s !! k = Some btn → items s ≠ [] →
  click k s = {| filterBtns := set_active k (filterBtns s);
                 items := map (apply_filter (data_filter btn)) (items s) |}.
Proof.
  intros Hk Hi. unfold click. rewrite Hk.
  destruct (filterBtns s) as [|b0 bs]; [done|].
  destruct (items s) as [|i0 rest]; done.
Qed.

Lemma set_active_lookup (k j : nat) (btns : list Button) :
  set_active k btns !! j
  = (fun b => {| data_filter := data_filter b; active := bool_decide (j = k) |})
      <$> btns !! j.
Proof. unfold set_active. apply list_lookup_imap. Qed.

Lemma set_active_twice (k1 k2 : nat) (btns : list Button) :
  set_active k2 (set_active k1 btns) = set_active k2 btns.
Proof.
  apply list_eq. intros j. rewrite !set_active_lookup.
  destruct (btns !! j); done.
Qed.

Lemma apply_filter_twice f1 f2 item :
  apply_filter f2 (apply_filter f1 item) = apply_filter f2 item.
Proof.
  assert (cat (apply_filter f1 item) = cat item) as Hcat.
  { destruct (apply_filter_tags f1 item) as (Hc & Hp & Hg).
    unfold cat. by rewrite Hc, Hp, Hg. }
  destruct (apply_filter_tags f1 item) as (Hc & Hp & Hg).
  unfold apply_filter at 1 3. rewrite Hcat, Hc, Hp, Hg. done.
Qed.

(** X12. After a click on a filter button that button is the only active
    one, and no button changes its filter value; on a section without
    buttons or without items no listener was registered and a click
    changes nothing. *)
Theorem filter_marks_clicked_button s k btn :
  filterBtns s !! k = Some btn →
  (items s ≠ [] →
     List.length (filterBtns (click k s)) = List.length (filterBtns s)
     ∧ ∀ j b, filterBtns s !! j = Some b →
         ∃ b', filterBtns (click k s) !! j = Some b'
           ∧ data_filter b' = data_filter b
           ∧ (active b' = true ↔ j = k))
  ∧ (items s = [] → click k s = s).
Proof.
  intros Hk. split.
  - intros Hi. rewrite (click_valid s k btn Hk Hi). simpl. split.
    + unfold set_active. apply length_imap.
    + intros j b Hj. rewrite set_active_lookup, Hj. simpl. eexists.
      split; [reflexivity|]. simpl. split; [done|].
      apply bool_decide_eq_true.
  - intros Hi. apply click_without_listeners. by right.
Qed.

Lemma filter_marks_clicked_button_witness :
  filterBtns (click 1
    {| filterBtns := [ {| data_filter := Some (lit "all"); active := true |};
                       {| data_filter := Some (lit "web"); active := false |} ];
       items := [ {| data_category := Some (lit "web"); data_project := None;
                     data_gallery := None; display := []; fade_in := false |} ] |})
    !! 0%nat = Some {| data_filter := Some (lit "all"); active := false |}.
Proof.
  set (s := {| filterBtns := _; items := _ |}).
  destruct (proj1 (filter_marks_clicked_button s 1
                     {| data_filter := Some (lit "web"); active := false |} eq_refl)
              ltac:(discriminate)) as [_ H].
  destruct (H 0%nat {| data_filter := Some (lit "all"); active := true |} eq_refl)
    as (b' & Hl & Hf & Ha).
  rewrite Hl. f_equal. destruct b' as [f a]. simpl in *. subst f.
  destruct a; [|reflexivity].
  pose proof (proj1 Ha eq_refl) as Hbad. discriminate Hbad.
Defined.

(** X13. The last filter wins: a click on a button gives the same cards
    and buttons whether or not another filter button was clicked before,
    so clicking the same button twice equals clicking it once. *)
Theorem last_filter_wins s k1 k2 btn :
  filterBtns s !! k2 = Some btn →
  click k2 (click k1 s) = click k2 s.
Proof.
  intros Hk2.
  destruct (decide (items s = [])) as [Hnil|Hi].
  { rewrite (click_without_listeners s k1) by (by right). done. }
  destruct (filterBtns s !! k1) as [b1|] eqn:Hk1.
  - rewrite (click_valid s k1 b1 Hk1 Hi).
    rewrite (click_valid s k2 btn Hk2 Hi).
    rewrite (click_valid _ k2
               {| data_filter := data_filter btn; active := bool_decide (k2 = k1) |}).
    + simpl. rewrite set_active_twice. f_equal.
      rewrite map_map. apply map_ext. intros item. apply apply_filter_twice.
    + simpl. rewrite set_active_lookup, Hk2. reflexivity.
    + simpl. destruct (items s); [done|discriminate].
  - unfold click at 2. rewrite Hk1.
    destruct (filterBtns s); [done|]. destruct (items s); done.
Qed.

Lemma last_filter_wins_witness :
  click 0 (click 1
    {| filterBtns := [ {| data_filter := Some (lit "all"); active := true |};
                       {| data_filter := Some (lit "web"); active := false |} ];
       items := [ {| data_category := Some (lit "ml"); data_project := None;
                     data_gallery := None; display := []; fade_in := false |} ] |})
  = click 0
    {| filterBtns := [ {| data_filter := Some (lit "all"); active := true |};
                       {| data_filter := Some (lit "web"); active := false |} ];
       items := [ {| data_category := Some (lit "ml"); data_project := None;
                     data_gallery := None; display := []; fade_in := false |} ] |}.
Proof.
  exact (last_filter_wins
           {| filterBtns := [ {| data_filter := Some (lit "all"); active := true |};
                              {| data_filter := Some (lit "web"); active := false |} ];
              items := [ {| data_category := Some (lit "ml"); data_project := None;
                            data_gallery := None; display := []; fade_in := false |} ] |}
           1 0 {| data_filter := Some (lit "all"); active := true |} eq_refl).
Defined.

End FilterClickFacts.

(** * Further properties of the contact form *)

Section ContactShapeFacts.
Import Js Contact.

(** X14. Whatever the response, a submission posts once to the form's
    action (to "#" without one), alerts exactly once, and resets the
    form exactly when the response is ok; effects of earlier submissions
    are kept. *)
Theorem submission_shape (r : Response) (f : Form) :
  effects (submit r f)
    = effects f ++ Post (or_default (action f) (lit "#")) :: emitted r
  ∧ List.length (List.filter is_alert (emitted r)) = 1%nat
  ∧ (List.length (List.filter is_reset (emitted r)) = 1%nat ↔ ∃ body, r = Arrived true body)
  ∧ (List.filter is_reset (emitted r) = [] ↔ failure r)
  ∧ action (submit r f) = action f.
Proof.
  split.
  { unfold submit, submitSettle, submitStart. simpl. by rewrite <- app_assoc. }
  split; [destruct r as [|[|] body]; reflexivity|].
  split.
  { destruct r as [|[|] body]; simpl; split; try done.
    - intros [body [=]].
    - intros _. by exists body.
    - intros [b [=]]. }
  split; [|done].
  destruct r as [|[|] body]; simpl; split; done.
Qed.

End ContactShapeFacts.

Lemma submission_shape_witness :
  ∃ body, Contact.Arrived true (Some Contact.JNull) = Contact.Arrived true body.
Proof.
  exact (proj1 (proj1 (proj2 (proj2
           (submission_shape (Contact.Arrived true (Some Contact.JNull))
              {| Contact.action := None; Contact.loading := false; Contact.effects := [] |}))))
           eq_refl).
Defined.

(** * Properties of the navigation highlighting *)

Section NavFacts.
Import Js Nav.

Implicit Types (y : QArith_base.Q) (sec : Sect) (secs : list Sect) (link : Link).

Lemma passed_spec y sec :
  passed y sec = true
  ↔ QArith_base.Qle (QArith_base.inject_Z (offsetTop sec - 100)) y.
Proof. unfold passed. apply QArith_base.Qle_bool_iff. Qed.

(** Scrolling further down keeps a passed section passed. *)
Lemma passed_mono_scroll y1 y2 sec :
  QArith_base.Qle y1 y2 → passed y1 sec = true → passed y2 sec = true.
Proof.
  intros Hy H. apply passed_spec. apply passed_spec in H.
  eapply QArith_base.Qle_trans; [exact H | exact Hy].
Qed.

(** A section above a passed one is passed as well. *)
Lemma passed_mono_top y (a b : Sect) :
  offsetTop a ≤ offsetTop b → passed y b = true → passed y a = true.
Proof.
  intros Hab H. apply passed_spec. apply passed_spec in H.
  eapply QArith_base.Qle_trans; [|exact H].
  rewrite <- QArith_base.Zle_Qle. lia.
Qed.

Lemma scan_none_passed y cur secs :
  Forall (fun sec => passed y sec = false) secs → scan y cur secs = cur.
Proof.
  intros H. revert cur. induction H as [|sec r Hs Hr IH]; intros cur; [reflexivity|].
  unfold scan. simpl. rewrite Hs. apply IH.
Qed.

Lemma scan_all_passed y cur secs :
  Forall (fun sec => passed y sec = true) secs →
  scan y cur secs = from_option id cur (last secs).
Proof.
  intros H. revert cur. induction H as [|sec r Hs Hr IH]; intros cur; [reflexivity|].
  unfold scan. simpl fold_left. rewrite Hs.
  change (scan y (id sec) r = from_option id cur (last (sec :: r))).
  rewrite IH. destruct r as [|sec' r']; [reflexivity|]. rewrite last_cons_cons.
  destruct (last (sec' :: r')) eqn:Hlast; [reflexivity|].
  apply last_None in Hlast. discriminate.
Qed.

Lemma scan_app y cur l1 l2 : scan y cur (l1 ++ l2) = scan y (scan y cur l1) l2.
Proof. unfold scan. apply fold_left_app. Qed.

(** X15. The section the highlighter picks is the last one, in document
    order, whose top minus 100 the scroll offset has reached; when no
    section qualifies the pick is the empty string. *)
Theorem current_is_last_passed y secs :
  (Forall (fun sec => passed y sec = false) secs → current y secs = [])
  ∧ (∀ l1 sec l2, secs = l1 ++ sec :: l2 → passed y sec = true →
       Forall (fun x => passed y x = false) l2 → current y secs = id sec).
Proof.
  split.
  - intros H. apply (scan_none_passed y [] secs H).
  - intros l1 sec l2 -> Hs Hl2. change (scan y [] (l1 ++ sec :: l2) = id sec).
    rewrite scan_app. unfold scan at 1. simpl fold_left. rewrite Hs.
    apply (scan_none_passed y (id sec) l2 Hl2).
Qed.

Lemma current_is_last_passed_witness :
  current (QArith_base.Qmake 450 1)
    [ {| id := lit "home"; offsetTop := 0 |};
      {| id := lit "software"; offsetTop := 500 |};
      {| id := lit "contact"; offsetTop := 1200 |} ]
  = lit "software".
Proof.
  refine (proj2 (current_is_last_passed (QArith_base.Qmake 450 1) _)
            [ {| id := lit "home"; offsetTop := 0 |} ]
            {| id := lit "software"; offsetTop := 500 |}
            [ {| id := lit "contact"; offsetTop := 1200 |} ] eq_refl _ _).
  - reflexivity.
  - repeat constructor.
Defined.

(** In top-to-bottom order the passed sections are the first
    [passed_count] ones. *)
Lemma passed_prefix y secs :
  top_to_bottom secs →
  Forall (fun sec => passed y sec = true) (take (passed_count y secs) secs)
  ∧ Forall (fun sec => passed y sec = false) (drop (passed_count y secs) secs).
Proof.
  unfold passed_count. induction secs as [|a r IH]; intros Hs; simpl; [by split|].
  destruct Hs as [Ha Hr]. destruct (passed y a) eqn:Hpa; simpl.
  - destruct (IH Hr) as [H1 H2]. split; [by constructor | exact H2].
  - assert (Forall (fun sec => passed y sec = false) r) as Hnone.
    { eapply Forall_impl; [exact Ha|]. intros b Hab. simpl in Hab.
      destruct (passed y b) eqn:Hpb; [|done].
      rewrite (passed_mono_top y a b Hab Hpb) in Hpa. discriminate. }
    assert (List.filter (passed y) r = []) as ->.
    { clear -Hnone. induction Hnone as [|b l Hb Hl IHl]; simpl; [done|]. by rewrite Hb. }
    simpl. split; [constructor|]. by constructor.
Qed.

Lemma passed_count_mono y1 y2 secs :
  QArith_base.Qle y1 y2 → (passed_count y1 secs ≤ passed_count y2 secs)%nat.
Proof.
  intros Hy. unfold passed_count. induction secs as [|a r IH]; simpl; [done|].
  destruct (passed y1 a) eqn:H1.
  - rewrite (passed_mono_scroll y1 y2 a Hy H1). simpl. lia.
  - destruct (passed y2 a); simpl; lia.
Qed.

Lemma current_prefix y secs :
  top_to_bottom secs → current y secs = last_id (take (passed_count y secs) secs).
Proof.
  intros Hs. destruct (passed_prefix y secs Hs) as [H1 H2].
  change (scan y [] secs = last_id (take (passed_count y secs) secs)).
  rewrite <- (take_drop (passed_count y secs) secs) at 1.
  rewrite scan_app, (scan_all_passed y [] _ H1). by apply scan_none_passed.
Qed.

(** X16. On a page whose sections lie top to bottom in document order,
    the pick is the last of the first k sections, where k counts the
    sections reached, and k never decreases when the page is scrolled
    further down: the highlight only moves forward. *)
Theorem current_tracks_scroll y1 y2 secs :
  top_to_bottom secs → QArith_base.Qle y1 y2 →
  current y1 secs = last_id (take (passed_count y1 secs) secs)
  ∧ current y2 secs = last_id (take (passed_count y2 secs) secs)
  ∧ (passed_count y1 secs ≤ passed_count y2 secs)%nat.
Proof.
  intros Hs Hy. split; [by apply current_prefix|].
  split; [by apply current_prefix | by apply passed_count_mono].
Qed.

Lemma current_tracks_scroll_witness :
  (passed_count (QArith_base.Qmake 399 1)
     [ {| id := lit "home"; offsetTop := 0 |};
       {| id := lit "software"; offsetTop := 500 |} ]
   ≤ passed_count (QArith_base.Qmake 801 2)
     [ {| id := lit "home"; offsetTop := 0 |};
       {| id := lit "software"; offsetTop := 500 |} ])%nat.
Proof.
  refine (proj2 (proj2 (current_tracks_scroll (QArith_base.Qmake 399 1)
                          (QArith_base.Qmake 801 2)
                          [ {| id := lit "home"; offsetTop := 0 |};
                            {| id := lit "software"; offsetTop := 500 |} ] _ _))).
  - simpl. split; [constructor; [simpl; lia | constructor]|].
    split; [constructor | exact I].
  - unfold QArith_base.Qle. simpl. lia.
Defined.

Lemma mark_fields (cur : jsstring) link :
  href (mark cur link) = href link
  ∧ (active (mark cur link) = true ↔ href link = Some (lit "#" ++ cur))
  ∧ (aria_current (mark cur link) = Some (lit "page") ↔ active (mark cur link) = true)
  ∧ (active (mark cur link) = false → aria_current (mark cur link) = None).
Proof.
  unfold mark. destruct (decide (href link = Some (lit "#" ++ cur))) as [H|H].
  - rewrite (bool_decide_eq_true_2 _ H). simpl. done.
  - rewrite (bool_decide_eq_false_2 _ H). simpl. repeat split; done.
Qed.

(** X17. After a scroll a nav link is active exactly when its href is
    "#" followed by the picked id, and it carries aria-current "page"
    exactly when it is active; hrefs are untouched and the outcome does
    not depend on what was highlighted before.  Above every section the
    pick is empty, so a link whose href is just "#" is the active one. *)
Theorem highlight_marks_links y secs (links : list Link) :
  List.length (highlightNavOnScroll y secs links) = List.length links
  ∧ (∀ i link, links !! i = Some link →
       ∃ link', highlightNavOnScroll y secs links !! i = Some link'
         ∧ href link' = href link
         ∧ (active link' = true ↔ href link = Some (lit "#" ++ current y secs))
         ∧ (aria_current link' = Some (lit "page") ↔ active link' = true)
         ∧ (active link' = false → aria_current link' = None))
  ∧ (∀ y' secs', highlightNavOnScroll y secs (highlightNavOnScroll y' secs' links)
                 = highlightNavOnScroll y secs links)
  ∧ (Forall (fun sec => passed y sec = false) secs →
       ∀ i link, links !! i = Some link → href link = Some (lit "#") →
         ∃ link', highlightNavOnScroll y secs links !! i = Some link'
           ∧ active link' = true).
Proof.
  unfold highlightNavOnScroll. split; [apply length_map|].
  split.
  { intros i link Hi. exists (mark (current y secs) link).
    split; [by rewrite list_lookup_fmap, Hi|]. apply mark_fields. }
  split.
  { intros y' secs'. rewrite map_map. apply map_ext. intros link.
    unfold mark at 1 3. destruct (mark_fields (current y' secs') link) as [-> _]. done. }
  intros Hnone i link Hi Hh. exists (mark (current y secs) link).
  split; [by rewrite list_lookup_fmap, Hi|].
  destruct (mark_fields (current y secs) link) as (_ & Ha & _). apply Ha.
  change (current y secs) with (scan y [] secs).
  rewrite (scan_none_passed y [] secs Hnone). exact Hh.
Qed.

Lemma highlight_marks_links_witness :
  ∃ link',
    highlightNavOnScroll (QArith_base.Qmake 450 1)
      [ {| id := lit "home"; offsetTop := 0 |};
        {| id := lit "software"; offsetTop := 500 |} ]
      [ {| href := Some (lit "#home"); active := true; aria_current := Some (lit "page") |};
        {| href := Some (lit "#software"); active := false; aria_current := None |} ]
      !! 1%nat = Some link'
    ∧ href link' = Some (lit "#software").
Proof.
  destruct (proj1 (proj2 (highlight_marks_links (QArith_base.Qmake 450 1)
              [ {| id := lit "home"; offsetTop := 0 |};
                {| id := lit "software"; offsetTop := 500 |} ]
              [ {| href := Some (lit "#home"); active := true;
                   aria_current := Some (lit "page") |};
                {| href := Some (lit "#software"); active := false;
                   aria_current := None |} ]))
              1%nat {| href := Some (lit "#software"); active := false;
                       aria_current := None |} eq_refl)
    as (link' & Hl & Hh & _).
  exists link'. split; [exact Hl | exact Hh].
Defined.

End NavFacts.

(** * Properties of the broken-image fallback *)

Section ImageFallbackFacts.
Import Js ImageFallback.

Implicit Types (kids : list Elem) (img : Elem).

Lemma alter_at (l1 l2 : list Elem) img :
  alter hide (List.length l1) (l1 ++ img :: l2) = l1 ++ hide img :: l2.
Proof. induction l1 as [|x l1 IH]; simpl; [done|]. f_equal. exact IH. Qed.

Lemma after_position (l1 l2 : list Elem) (x : Elem) :
  take (S (List.length l1)) (l1 ++ x :: l2) = l1 ++ [x]
  ∧ drop (S (List.length l1)) (l1 ++ x :: l2) = l2
  ∧ (l1 ++ x :: l2) !! S (List.length l1) = l2 !! 0%nat.
Proof.
  induction l1 as [|a l1 (IH1 & IH2 & IH3)]; simpl.
  - split; [by rewrite take_0|]. split; [by rewrite drop_0|]. done.
  - split; [by f_equal|]. split; done.
Qed.

Lemma handleImageError_at (l1 l2 : list Elem) img :
  handleImageError (Some (l1 ++ img :: l2)) (List.length l1)
  = Some (l1 ++ hide img :: placeholder :: l2).
Proof.
  unfold handleImageError. rewrite alter_at.
  destruct (after_position l1 l2 (hide img)) as (Ht & Hd & Hl).
  rewrite Hl, Ht, Hd. destruct l2 as [|y l2]; simpl.
  - f_equal. by rewrite <- app_assoc.
  - f_equal. by rewrite <- app_assoc.
Qed.

(** X18. A failed image is hidden and a placeholder is put right after
    it, whether the image has a next sibling or is the last child; the
    other children keep their places.  Nothing marks the image as
    handled: a second error on the same image adds a second placeholder.
    For an image without a parent nothing happens. *)
Theorem image_error_inserts_placeholder kids (i : nat) img :
  kids !! i = Some img →
  handleImageError (Some kids) i
    = Some (take i kids ++ hide img :: placeholder :: drop (S i) kids)
  ∧ handleImageError
      (Some (take i kids ++ hide img :: placeholder :: drop (S i) kids)) i
    = Some (take i kids ++ hide img :: placeholder :: placeholder :: drop (S i) kids)
  ∧ handleImageError None i = None.
Proof.
  intros Hi.
  assert (List.length (take i kids) = i) as Hlen.
  { apply length_take_le. apply lookup_lt_Some in Hi. lia. }
  split; [|split; [|reflexivity]].
  - pose proof (handleImageError_at (take i kids) (drop (S i) kids) img) as H.
    rewrite Hlen, (take_drop_middle kids i img Hi) in H. exact H.
  - pose proof (handleImageError_at (take i kids) (placeholder :: drop (S i) kids)
                  (hide img)) as H.
    rewrite Hlen in H. exact H.
Qed.

Lemma image_error_inserts_placeholder_witness :
  handleImageError
    (Some [ {| tag := lit "h3"; className := []; text := lit "AWS"; display := [] |};
            {| tag := lit "img"; className := lit "certificate-thumbnail"; text := [];
               display := [] |} ]) 1
  = Some [ {| tag := lit "h3"; className := []; text := lit "AWS"; display := [] |};
           {| tag := lit "img"; className := lit "certificate-thumbnail"; text := [];
              display := lit "none" |};
           placeholder ].
Proof.
  exact (proj1 (image_error_inserts_placeholder
                  [ {| tag := lit "h3"; className := []; text := lit "AWS"; display := [] |};
                    {| tag := lit "img"; className := lit "certificate-thumbnail";
                       text := []; display := [] |} ] 1
                  {| tag := lit "img"; className := lit "certificate-thumbnail";
                     text := []; display := [] |} eq_refl)).
Defined.

End ImageFallbackFacts.
